(** * The gift page: flow controller, story sequencer and progress bars

    A shallow embedding of the page's scripts:
    - [app.js]      (screen management, [startFlow], [jumpTo], [init]),
    - [suitcase.js] ([initMap], [initSuitcase] with its inner [showStep] and
                     its click listener),
    - [progress.js] ([STEPS], [createProgressItem], [animateFill],
                     [runProgress]),
    - [video.js]    ([initVideo] with its listeners),
    - [model-viewer.js] ([tryLoadModel], [findAndLoad], [loadModel]).

    The DOM is a record of class lists and style values.  Every closure
    created by a call of [initSuitcase] is kept in the page state, since
    its click listener stays registered on the story screen.  Browser
    events (clicks, timers, the end of the progress sequence) are the
    letters of an event alphabet; a run of the page is a list of them.

    Conventions of the model:
    - every element the scripts look up exists in the document;
    - the values of the query parameters are ASCII strings;
    - a handler runs to completion: page states are those between two
      handlers;
    - events may come in any order, which covers every schedule a browser
      can produce;
    - the durations and percentages of the script of [runProgress] are
      exact rationals; the frame of [animateFill] is given twice: as
      the doubles compute it ([Binary64]), and as the exact curve the
      doubles approximate ([Progress.frame]). *)

From Stdlib Require Import ZArith QArith Qminmax Qround Lia List Bool Ascii String.
From Stdlib Require Import PrimFloat Lqa.
From stdpp Require Import base decidable option list strings.
Import ListNotations.

Local Open Scope string_scope.
Local Open Scope list_scope.
Local Open Scope Z_scope.

(** ** JavaScript values used by the scripts *)

Module JS.

(** The numbers that reach [initSuitcase]: the result of
    [parseInt(s, 10)] is an integer or [NaN].  (Integers beyond 2^53 are
    rounded by JavaScript; the clamp of [initSuitcase] maps them to the
    same bound, so they are kept exact here.) *)
Inductive num : Set :=
| NaN
| Num (z : Z).

#[global] Instance num_eq_dec : EqDecision num.
Proof. solve_decision. Defined.

Definition max (a b : num) : num :=
  match a, b with
  | Num x, Num y => Num (Z.max x y)
  | _, _ => NaN
  end.

Definition min (a b : num) : num :=
  match a, b with
  | Num x, Num y => Num (Z.min x y)
  | _, _ => NaN
  end.

(** [a === b], [a < b], [a >= b]: every comparison with [NaN] is false. *)
Definition strictEq (a b : num) : bool :=
  match a, b with
  | Num x, Num y => x =? y
  | _, _ => false
  end.

Definition lt (a b : num) : bool :=
  match a, b with
  | Num x, Num y => x <? y
  | _, _ => false
  end.

Definition ge (a b : num) : bool :=
  match a, b with
  | Num x, Num y => y <=? x
  | _, _ => false
  end.

(** [a++] *)
Definition incr (a : num) : num :=
  match a with
  | Num x => Num (x + 1)
  | NaN => NaN
  end.

(** *** [parseInt(s, 10)] on ASCII strings *)

Definition isWhite (c : ascii) : bool :=
  let n := nat_of_ascii c in
  ((9 <=? n)%nat && (n <=? 13)%nat) || (n =? 32)%nat.

Definition digitOf (c : ascii) : option Z :=
  let n := Z.of_nat (nat_of_ascii c) in
  if (48 <=? n) && (n <=? 57) then Some (n - 48) else None.

Fixpoint trimStart (s : string) : string :=
  match s with
  | String c r => if isWhite c then trimStart r else s
  | EmptyString => s
  end.

(** Reads the longest prefix of decimal digits; [None] when the prefix
    is empty. *)
Fixpoint digits (acc : option Z) (s : string) : option Z :=
  match s with
  | String c r =>
      match digitOf c with
      | Some d => digits (Some (10 * default 0 acc + d)) r
      | None => acc
      end
  | EmptyString => acc
  end.

Definition parseInt (s : string) : num :=
  let t := trimStart s in
  let '(sign, body) :=
    match t with
    | String "-"%char r => (-1, r)
    | String "+"%char r => (1, r)
    | _ => (1, t)
    end in
  match digits None body with
  | Some z => Num (sign * z)
  | None => NaN
  end.

(** *** [DOMTokenList] *)

Definition classList := list string.

Definition contains (c : string) (l : classList) : bool :=
  bool_decide (c ∈ l).

Definition add (c : string) (l : classList) : classList :=
  if contains c l then l else l ++ [c].

Definition remove (c : string) (l : classList) : classList :=
  filter (λ x, x ≠ c) l.

Definition toggle (c : string) (force : bool) (l : classList) : classList :=
  if force then add c l else remove c l.

End JS.

(** ** The page state *)

(** The variables captured by one call of [initSuitcase]. *)
Record Closure : Set := mkClosure {
  totalSteps : Z;
  currentStep : JS.num;
  transitioning : bool
}.

#[global] Instance Closure_eq_dec : EqDecision Closure.
Proof. solve_decision. Defined.

(** Pending [setTimeout] callbacks. *)
Inductive timer : Set :=
| TransitionEnd (k : nat)   (* [() => { transitioning = false; }], 580 ms *)
| FlashEnd                  (* error screen: flash -> shake, 600 ms *)
| ShakeEnd.                 (* error screen: shake off, 500 ms *)

#[global] Instance timer_eq_dec : EqDecision timer.
Proof. solve_decision. Defined.

(** Calls into the collaborators and displayed slides, oldest first. *)
Inductive effect : Set :=
| RunProgress                               (* [runProgress()] was called *)
| InitModelViewer                           (* [initModelViewer()] *)
| LeafletSetup                              (* [initMap] handed the map set-up
                                               to [requestAnimationFrame] *)
| ShowStep (index : JS.num) (animate : bool). (* [showStep] updated the slides *)

#[global] Instance effect_eq_dec : EqDecision effect.
Proof. solve_decision. Defined.

Record Page : Set := mkPage {
  screens : list (string * JS.classList);  (* the [screens] object, in
                                              [Object.entries] order *)
  steps : list JS.classList;               (* [.suitcase-step] elements *)
  dots : list JS.classList;                (* [#step-dots .step-dot] *)
  tapHint : string;                        (* [tapHint.style.display] *)
  mapInitialised : bool;
  closures : list Closure;                 (* click listeners of the story
                                              screen, in registration order *)
  timers : list timer;
  awaitingProgress : bool;                 (* [startFlow] is suspended at
                                              [await runProgress()] *)
  log : list effect
}.

Definition set_screens (f : list (string * JS.classList) → list (string * JS.classList))
    (p : Page) : Page :=
  mkPage (f (screens p)) (steps p) (dots p) (tapHint p) (mapInitialised p)
         (closures p) (timers p) (awaitingProgress p) (log p).

Definition set_steps (v : list JS.classList) (p : Page) : Page :=
  mkPage (screens p) v (dots p) (tapHint p) (mapInitialised p)
         (closures p) (timers p) (awaitingProgress p) (log p).

Definition set_dots (v : list JS.classList) (p : Page) : Page :=
  mkPage (screens p) (steps p) v (tapHint p) (mapInitialised p)
         (closures p) (timers p) (awaitingProgress p) (log p).

Definition set_tapHint (v : string) (p : Page) : Page :=
  mkPage (screens p) (steps p) (dots p) v (mapInitialised p)
         (closures p) (timers p) (awaitingProgress p) (log p).

Definition set_mapInitialised (v : bool) (p : Page) : Page :=
  mkPage (screens p) (steps p) (dots p) (tapHint p) v
         (closures p) (timers p) (awaitingProgress p) (log p).

Definition set_closures (v : list Closure) (p : Page) : Page :=
  mkPage (screens p) (steps p) (dots p) (tapHint p) (mapInitialised p)
         v (timers p) (awaitingProgress p) (log p).

Definition set_timers (v : list timer) (p : Page) : Page :=
  mkPage (screens p) (steps p) (dots p) (tapHint p) (mapInitialised p)
         (closures p) v (awaitingProgress p) (log p).

Definition set_awaitingProgress (v : bool) (p : Page) : Page :=
  mkPage (screens p) (steps p) (dots p) (tapHint p) (mapInitialised p)
         (closures p) (timers p) v (log p).

Definition emit (e : effect) (p : Page) : Page :=
  mkPage (screens p) (steps p) (dots p) (tapHint p) (mapInitialised p)
         (closures p) (timers p) (awaitingProgress p) (log p ++ [e]).

Definition setTimeout (t : timer) (p : Page) : Page :=
  set_timers (timers p ++ [t]) p.

(** The document as it is loaded, before any script has run. *)
Record DOM : Set := mkDOM {
  screenProgress : JS.classList;
  screenError : JS.classList;
  screenSuitcase : JS.classList;
  screenModel : JS.classList;
  suitcaseSteps : list JS.classList;
  stepDots : list JS.classList;
  tapHintDisplay : string
}.

Definition load (d : DOM) : Page :=
  {| screens := [("progress", screenProgress d); ("error", screenError d);
                 ("suitcase", screenSuitcase d); ("model", screenModel d)];
     steps := suitcaseSteps d;
     dots := stepDots d;
     tapHint := tapHintDisplay d;
     mapInitialised := false;
     closures := [];
     timers := [];
     awaitingProgress := false;
     log := [] |}.

(** ** suitcase.js *)

Module Suitcase.

(** [initMap]: the guard, the flag, and the set-up callback given to
    [requestAnimationFrame]. *)
Definition initMap (p : Page) : Page :=
  if mapInitialised p then p
  else emit LeafletSetup (set_mapInitialised true p).

(** The body of [steps.forEach((step, i) => ...)] in [showStep]. *)
Definition stepClasses (index : JS.num) (i : nat) (cl : JS.classList) : JS.classList :=
  if JS.strictEq (JS.Num (Z.of_nat i)) index then
    JS.add "active" (JS.remove "exited" cl)
  else if JS.lt (JS.Num (Z.of_nat i)) index then
    JS.add "exited" (JS.remove "active" cl)
  else
    JS.remove "exited" (JS.remove "active" cl).

(** The body of [dots.forEach((dot, i) => ...)]. *)
Definition dotClasses (index : JS.num) (i : nat) (cl : JS.classList) : JS.classList :=
  JS.toggle "active" (JS.strictEq (JS.Num (Z.of_nat i)) index) cl.

(** [showStep(index, animate)] of the closure number [k]. *)
Definition showStep (k : nat) (index : JS.num) (animate : bool) (p : Page) : Page :=
  match closures p !! k with
  | None => p
  | Some c =>
      if animate && transitioning c then p
      else
        let c1 := if animate
                  then mkClosure (totalSteps c) (currentStep c) true
                  else c in
        let p1 := set_closures (<[k := c1]> (closures p)) p in
        let p2 := set_steps (imap (stepClasses index) (steps p1)) p1 in
        let p3 := set_dots (imap (dotClasses index) (dots p2)) p2 in
        let p4 := set_tapHint
                    (if JS.ge index (JS.Num (totalSteps c - 1)) then "none" else "")
                    p3 in
        let p5 := emit (ShowStep index animate) p4 in
        let p6 := if JS.strictEq index (JS.Num 2) then initMap p5 else p5 in
        if animate then setTimeout (TransitionEnd k) p6 else p6
  end.

(** [initSuitcase(startAt)]. *)
Definition initSuitcase (startAt : JS.num) (p : Page) : Page :=
  let total := Z.of_nat (length (steps p)) in
  let start := JS.min (JS.max startAt (JS.Num 0)) (JS.Num (total - 1)) in
  let k := length (closures p) in
  let p1 := set_closures (closures p ++ [mkClosure total start false]) p in
  showStep k start false p1.

(** The click listener registered by the closure number [k];
    [onGiftButton] is [e.target.closest('#btn-show-gift')]. *)
Definition onClick (k : nat) (onGiftButton : bool) (p : Page) : Page :=
  match closures p !! k with
  | None => p
  | Some c =>
      if onGiftButton then p
      else if JS.ge (currentStep c) (JS.Num (totalSteps c - 1)) then p
      else
        let next := JS.incr (currentStep c) in
        let c1 := mkClosure (totalSteps c) next (transitioning c) in
        showStep k next true (set_closures (<[k := c1]> (closures p)) p)
  end.

(** The timer callback [() => { transitioning = false; }]. *)
Definition endTransition (k : nat) (p : Page) : Page :=
  match closures p !! k with
  | None => p
  | Some c =>
      set_closures
        (<[k := mkClosure (totalSteps c) (currentStep c) false]> (closures p)) p
  end.

(** A click on the story screen runs every registered listener. *)
Definition click (onGiftButton : bool) (p : Page) : Page :=
  foldl (λ q k, onClick k onGiftButton q) p (seq 0 (length (closures p))).

End Suitcase.

(** ** app.js *)

Module App.

(** Property names every object inherits from [Object.prototype]:
    [screens[key]] is truthy for them as well. *)
Definition objectPrototype : list string :=
  ["constructor"; "__defineGetter__"; "__defineSetter__"; "hasOwnProperty";
   "__lookupGetter__"; "__lookupSetter__"; "isPrototypeOf";
   "propertyIsEnumerable"; "toString"; "valueOf"; "__proto__";
   "toLocaleString"].

(** The truth value of [screens[key]]. *)
Definition hasScreen (key : string) (p : Page) : bool :=
  bool_decide (key ∈ (screens p).*1) || bool_decide (key ∈ objectPrototype).

(** The callback of [Object.entries(screens).forEach] in [showScreen]. *)
Definition activate (name : string) (entry : string * JS.classList)
  : string * JS.classList :=
  if bool_decide (entry.1 = name)
  then (entry.1, JS.add "active" entry.2)
  else (entry.1, JS.remove "active" entry.2).

Definition showScreen (name : string) (p : Page) : Page :=
  set_screens (map (activate name)) p.

(** [screens.error.classList] updated by [f]. *)
Definition onError (f : JS.classList → JS.classList)
    (entry : string * JS.classList) : string * JS.classList :=
  if bool_decide (entry.1 = "error") then (entry.1, f entry.2) else entry.

Definition onErrorScreen (f : JS.classList → JS.classList) (p : Page) : Page :=
  set_screens (map (onError f)) p.

(** [startFlow] up to its [await runProgress()]. *)
Definition startFlow (p : Page) : Page :=
  set_awaitingProgress true (emit RunProgress (showScreen "progress" p)).

(** [startFlow] after the [await]. *)
Definition startFlowResumed (p : Page) : Page :=
  let p1 := showScreen "error" (set_awaitingProgress false p) in
  setTimeout FlashEnd (onErrorScreen (JS.add "flash") p1).

Definition flashEnd (p : Page) : Page :=
  setTimeout ShakeEnd
    (onErrorScreen (λ el, JS.add "shake" (JS.remove "flash" el)) p).

Definition shakeEnd (p : Page) : Page :=
  onErrorScreen (JS.remove "shake") p.

Section QueryParams.

(** [params.get('screen')] and [params.get('step')]; [None] is [null]. *)
Variable skipTo : option string.
Variable suitcaseStep : option string.

Definition jumpTo (name : string) (p : Page) : Page :=
  let p1 := showScreen name p in
  if bool_decide (name = "error") then p1
  else if bool_decide (name = "suitcase") then
    Suitcase.initSuitcase
      (match suitcaseStep with
       | Some s => JS.parseInt s
       | None => JS.Num 0
       end) p1
  else if bool_decide (name = "model") then emit InitModelViewer p1
  else startFlow p1.

(** [init]: the two button listeners are the events [ClickNextSteps]
    and [ClickShowGift] below. *)
Definition init (p : Page) : Page :=
  match skipTo with
  | Some name =>
      if negb (bool_decide (name = "")) && hasScreen name p
      then jumpTo name p
      else startFlow p
  | None => startFlow p
  end.

End QueryParams.

(** The listener of [#btn-next-steps]. *)
Definition onNextSteps (p : Page) : Page :=
  Suitcase.initSuitcase (JS.Num 0) (showScreen "suitcase" p).

(** The listener of [#btn-show-gift]; it stops the propagation of the
    click, which therefore never reaches the story screen. *)
Definition onShowGift (p : Page) : Page :=
  emit InitModelViewer (showScreen "model" p).

End App.

(** ** Runs of the page *)

Inductive event : Set :=
| ClickNextSteps
| ClickShowGift
| ClickStory (onGiftButton : bool)   (* a click that reaches [#screen-suitcase] *)
| TimerFires (i : nat)               (* the pending timer number [i] fires *)
| ProgressDone.                      (* the promise of [runProgress()] resolves *)

Definition fire (t : timer) (p : Page) : Page :=
  match t with
  | TransitionEnd k => Suitcase.endTransition k p
  | FlashEnd => App.flashEnd p
  | ShakeEnd => App.shakeEnd p
  end.

Definition handle (p : Page) (e : event) : Page :=
  match e with
  | ClickNextSteps => App.onNextSteps p
  | ClickShowGift => App.onShowGift p
  | ClickStory b => Suitcase.click b p
  | TimerFires i =>
      match timers p !! i with
      | Some t => fire t (set_timers (delete i (timers p)) p)
      | None => p
      end
  | ProgressDone =>
      if awaitingProgress p then App.startFlowResumed p else p
  end.

Definition run (p : Page) (es : list event) : Page := foldl handle p es.

(** *** Observations *)

(** The screens that carry the class [active]. *)
Definition activeScreens (p : Page) : list string :=
  (filter (λ kv, JS.contains "active" kv.2 = true) (screens p)).*1.

(** The indices of the elements that carry the class [active]. *)
Definition activeIn (l : list JS.classList) : list nat :=
  filter (λ i, (JS.contains "active" <$> l !! i) = Some true) (seq 0 (length l)).

Definition activeSteps (p : Page) : list nat := activeIn (steps p).

Definition activeDots (p : Page) : list nat := activeIn (dots p).

Definition count_effect (P : effect → bool) (p : Page) : nat :=
  length (filter (λ e, P e = true) (log p)).

Definition isLeafletSetup (e : effect) : bool :=
  match e with LeafletSetup => true | _ => false end.

Definition isShowMapStep (e : effect) : bool :=
  match e with ShowStep (JS.Num 2) _ => true | _ => false end.

Definition isRunProgress (e : effect) : bool :=
  match e with RunProgress => true | _ => false end.

(** A document with four slides, the steps 0-3 of the comment that heads
    [app.js]; the progress screen is the one shown at load time. *)
Definition sampleDOM : DOM :=
  {| screenProgress := ["screen"; "active"];
     screenError := ["screen"];
     screenSuitcase := ["screen"];
     screenModel := ["screen"];
     suitcaseSteps := [["suitcase-step"]; ["suitcase-step"];
                       ["suitcase-step"]; ["suitcase-step"]];
     stepDots := [["step-dot"]; ["step-dot"]; ["step-dot"]; ["step-dot"]];
     tapHintDisplay := "" |}.

(** The sample document opened with [?screen=suitcase] and the given
    [step] parameter. *)
Definition samplePage (suitcaseStep : option string) : Page :=
  App.init (Some "suitcase") suitcaseStep (load sampleDOM).

(** The page shows the story at its map step, and the default flow was
    not started: what a deep link to the map step is expected to give. *)
Definition showsStoryAtMapStep (p : Page) : Prop :=
  activeScreens p = ["suitcase"] ∧
  activeSteps p = [2%nat] ∧
  mapInitialised p = true ∧
  count_effect isLeafletSetup p = 1%nat ∧
  count_effect isRunProgress p = 0%nat.

(** ** progress.js *)

Module Progress.

Local Open Scope Q_scope.

(** An entry of [STEPS]; [failAt] is [None] when the property is absent. *)
Record Step : Set := mkStep {
  label : string;
  colour : string;
  duration : Q;
  failAt : option Q
}.

Definition STEPS : list Step :=
  [ mkStep "Authenticating" "lavender" 2200 None;
    mkStep "Locating gift" "pink" 2800 None;
    mkStep "Cross-referencing list of gift ideas" "mint" 2000 None;
    mkStep "Verifying recipient" "coral" 1800 None;
    mkStep "Finalising" "gold" 3000 (Some 87) ].

(** *** The curve of [animateFill], in exact arithmetic

    The width a frame of [animateFill] aims at, before any rounding:
    [start] is the value of [performance.now()] when the promise is
    created and [now] the time stamp of the frame.  The frame as the
    doubles compute it, and the frame loop, are in [Binary64] below. *)

Definition eased (progress : Q) : Q :=
  if Qlt_le_dec progress (1 # 2)
  then 2 * progress * progress
  else 1 - (-2 * progress + 2) ^ 2 / 2.

(** One call of [frame(now)] in exact arithmetic: the width aimed at and
    whether another frame is requested ([false]: [resolve()] is called). *)
Definition frame (start startWidth delta duration now : Q) : Q * bool :=
  let elapsed := now - start in
  let progress := Qmin (elapsed / duration) 1 in
  (startWidth + delta * eased progress,
   if Qlt_le_dec progress 1 then true else false).

(** *** [runProgress]

    The asynchronous function is a script: the list of the DOM updates
    it makes and of the promises it awaits, in the order in which it
    makes them. *)

Inductive statusText : Set :=
| Blank
| Percent (p : Q)
| FAILED.

Inductive op : Set :=
| ClearList                                 (* [list.innerHTML = ''] *)
| AppendItem (i : nat)                      (* [list.appendChild(item)] *)
| Sleep (ms : Q)                            (* [await sleep(ms)] *)
| ItemClass (i : nat) (cls : string)        (* [item.classList.add] *)
| AnimateFill (i : nat) (target duration : Q) (* [await animateFill(..)] *)
| StatusText (i : nat) (t : statusText)     (* [status.textContent = ..] *)
| StatusClass (i : nat) (cls : string)      (* [status.classList.add] *)
| FillBackground (i : nat) (css : string)   (* [fill.style.background = ..] *)
| StatusTick (i : nat).                     (* [status.innerHTML = <svg>] *)

Definition Async (A : Type) : Type := A * list op.

#[global] Instance Async_ret : MRet Async := λ A x, (x, []).
#[global] Instance Async_bind : MBind Async :=
  λ A B f m, let '(b, t) := f m.1 in (b, m.2 ++ t).

Definition perform (o : op) : Async unit := (tt, [o]).
Definition sleep (ms : Q) : Async unit := perform (Sleep ms).

(** [if (step.failAt)]: absent, [0] and [NaN] are falsy. *)
Definition failPoint (step : Step) : option Q :=
  match failAt step with
  | Some p => if Qeq_bool p 0 then None else Some p
  | None => None
  end.

(** The body of the [for] loop. *)
Definition runStep (i : nat) (step : Step) : Async unit :=
  perform (AppendItem i);;
  sleep 300;;
  perform (ItemClass i "visible");;
  sleep 200;;
  match failPoint step with
  | Some p =>
      perform (AnimateFill i p (duration step * (p / 100)));;
      perform (StatusText i (Percent p));;
      sleep 800;;
      perform (AnimateFill i (p + 1) 400);;
      perform (StatusText i (Percent (p + 1)));;
      sleep 600;;
      perform (AnimateFill i (p - 2) 200);;
      perform (StatusText i FAILED);;
      perform (StatusClass i "fail");;
      perform (FillBackground i "linear-gradient(90deg, var(--error-red), #E57373)");;
      sleep 1200
  | None =>
      perform (AnimateFill i 100 (duration step));;
      perform (StatusText i Blank);;
      perform (StatusClass i "done");;
      perform (StatusTick i);;
      sleep 400
  end.

Fixpoint forSteps (i : nat) (steps : list Step) : Async unit :=
  match steps with
  | [] => mret tt
  | step :: rest => runStep i step;; forSteps (S i) rest
  end.

Definition runProgressOf (steps : list Step) : Async unit :=
  perform ClearList;;
  forSteps 0 steps;;
  sleep 600.

Definition runProgress : Async unit := runProgressOf STEPS.

(** The step an operation belongs to. *)
Definition stepOf (o : op) : option nat :=
  match o with
  | AppendItem i | ItemClass i _ | AnimateFill i _ _ | StatusText i _
  | StatusClass i _ | FillBackground i _ | StatusTick i => Some i
  | ClearList | Sleep _ => None
  end.


(** Normalised time of the frame at [now]. *)
Definition normalised (duration start now : Q) : Q := (now - start) / duration.

(** The script of a failing step as the specification words it: fill to
    [p]%, pause, stutter to [p + 1]%, pause, regress to [p - 2]%, mark
    FAILED with the error style, pause; the delays are those of the code. *)
Definition failureScript (i : nat) (duration p : Q) : list op :=
  [ AppendItem i; Sleep 300; ItemClass i "visible"; Sleep 200;
    AnimateFill i p (duration * (p / 100)); StatusText i (Percent p); Sleep 800;
    AnimateFill i (p + 1) 400; StatusText i (Percent (p + 1)); Sleep 600;
    AnimateFill i (p - 2) 200; StatusText i FAILED; StatusClass i "fail";
    FillBackground i "linear-gradient(90deg, var(--error-red), #E57373)";
    Sleep 1200 ].

End Progress.

(** *** [animateFill] in binary64

    JavaScript numbers are IEEE doubles: the frame is computed here with
    the operations of the doubles and their rounding.  [start] is the
    value of [performance.now()] when the promise is created, [nows] are
    the time stamps the browser passes to the successive frame callbacks,
    and the widths are those the frames assign to [fill.style.width]
    (a style declaration keeps its old value when it is assigned a
    negative percentage or one that is not a number). *)

Module Binary64.

Local Open Scope float_scope.




(** [Math.min(x, y)]: the smaller number, [NaN] if one of them is [NaN],
    and [-0] before [+0].  (When neither is smaller and both are numbers,
    they are the same number up to the sign of a zero.) *)
Definition mathMin (x y : float) : float :=
  if x <? y then x
  else if y <? x then y
  else if is_nan x || is_nan y then nan
  else if is_zero y && get_sign x then x
  else y.

Section Engine.

(** [Math.pow], whose result the language leaves to the engine
    (it is implementation-approximated), except in special cases such as
    [Math.pow(0, 2)], which is [0]. *)
Variable pow : float → float → float.

Definition eased (progress : float) : float :=
  if progress <? 0.5
  then 2 * progress * progress
  else 1 - pow (-2 * progress + 2) 2 / 2.

(** One call of [frame(now)]: the width written to the fill and whether
    another frame is requested ([false]: [resolve()] is called). *)
Definition frame (start startWidth delta duration now : float) : float * bool :=
  let elapsed := now - start in
  let progress := mathMin (elapsed / duration) 1 in
  (startWidth + delta * eased progress, progress <? 1).



End Engine.




(** An engine whose [Math.pow(x, 2)] is the rounded square. *)
Definition square (x _ : float) : float := x * x.


End Binary64.

(** ** Invariants of the runs *)

(** The closure after its own click listener has run. *)
Definition clicked (onGiftButton : bool) (c : Closure) : Closure :=
  if onGiftButton then c
  else if JS.ge (currentStep c) (JS.Num (totalSteps c - 1)) then c
  else mkClosure (totalSteps c) (JS.incr (currentStep c)) true.

(** One event moves a closure by at most one slide, and never past the
    last one. *)
Definition advance (c c' : Closure) : Prop :=
  totalSteps c' = totalSteps c ∧
  (currentStep c' = currentStep c ∨
   (JS.ge (currentStep c) (JS.Num (totalSteps c - 1)) = false ∧
    currentStep c' = JS.incr (currentStep c))).

(** What [showStep] appends to the log. *)
Definition shown (k : nat) (index : JS.num) (a : bool) (p : Page) : list effect :=
  match closures p !! k with
  | Some c =>
      if a && transitioning c then []
      else ShowStep index a ::
           (if JS.strictEq index (JS.Num 2) && negb (mapInitialised p)
            then [LeafletSetup] else [])
  | None => []
  end.

Definition noLeaflet (p : Page) : Prop :=
  mapInitialised p = false ∧ count_effect isLeafletSetup p = 0%nat.

(** The flag [mapInitialised] counts the map set-ups, and it is set as
    soon as the map step has been shown. *)
Definition mapInv (p : Page) : Prop :=
  count_effect isLeafletSetup p = (if mapInitialised p then 1 else 0)%nat ∧
  (mapInitialised p = false → count_effect isShowMapStep p = 0%nat) ∧
  (mapInitialised p = true → (0 < count_effect isShowMapStep p)%nat).

(** Every closure sits past the map step, and the map is untouched. *)
Definition pastMapStep (p : Page) : Prop :=
  noLeaflet p ∧
  Forall (λ c, ∃ z, currentStep c = JS.Num z ∧ 2 < z) (closures p).


Definition keys (p : Page) : list string := (screens p).*1.

Definition screenKeys : list string := ["progress"; "error"; "suitcase"; "model"].

Definition screensInv (p : Page) : Prop :=
  keys p = screenKeys ∧ (length (activeScreens p) ≤ 1)%nat.

(** ** The story sequencer: further observations *)

(** The number of pending timers that end the transition of closure [k]. *)
Definition pendingTransitions (k : nat) (p : Page) : nat :=
  length (filter (λ t, t = TransitionEnd k) (timers p)).

(** The flag of a closure is set exactly while its one timer is pending,
    and no timer belongs to a closure that does not exist. *)
Definition timersInv (p : Page) : Prop :=
  ∀ k, pendingTransitions k p =
       match closures p !! k with
       | Some c => if transitioning c then 1%nat else 0%nat
       | None => 0%nat
       end.

(** Every closure is on a slide that exists. *)
Definition closuresOk (p : Page) : Prop :=
  Forall (λ c, totalSteps c = Z.of_nat (length (steps p)) ∧
               ∃ z, currentStep c = JS.Num z ∧ 0 ≤ z ≤ totalSteps c - 1)
         (closures p).

(** Exactly one slide is shown, and the tap hint is hidden exactly when
    it is the last one. *)
Definition oneSlideShown (p : Page) : Prop :=
  ∃ i : nat, (i < length (steps p))%nat ∧
             activeSteps p = [i] ∧
             tapHint p = if bool_decide (S i = length (steps p)) then "none" else "".

Definition storyInv (p : Page) : Prop := closuresOk p ∧ oneSlideShown p.

(** The dots mirror the slides. *)
Definition dotsInv (p : Page) : Prop :=
  length (dots p) = length (steps p) ∧ activeDots p = activeSteps p.

(** [Math.min(Math.max(z, 0), total - 1)] on integers. *)
Definition clamp (total z : Z) : Z := Z.min (Z.max z 0) (total - 1).

(** One tap followed by the end of its transition. *)
Definition spacedTap : list event := [ClickStory false; TimerFires 0].

(** The class list of the screen stored under [key]. *)
Definition screenClasses (key : string) (p : Page) : JS.classList :=
  match list_find (λ entry, entry.1 = key) (screens p) with
  | Some (_, entry) => entry.2
  | None => []
  end.

(** The screen a value of the [screen] parameter leads to. *)
Definition landing (skipTo : option string) : string :=
  match skipTo with
  | Some name =>
      if bool_decide (name ∈ ["error"; "suitcase"; "model"]) then name
      else "progress"
  | None => "progress"
  end.

Definition isInitModelViewer (e : effect) : bool :=
  match e with InitModelViewer => true | _ => false end.

(** ** progress.js: the list of bars *)

Module ProgressDOM.

Import Progress.
Local Open Scope Q_scope.

(** What the status span holds: text, or the tick icon. *)
Inductive statusContent : Set :=
| TextContent (t : statusText)
| TickIcon.

(** A [.progress-item] with its label, fill and status. *)
Record Item : Set := mkItem {
  itemClasses : JS.classList;
  labelText : string;
  fillClasses : JS.classList;
  fillWidth : option Q;            (* [fill.style.width], in percent *)
  fillBackground : option string;  (* [fill.style.background] *)
  status : statusContent;
  statusClasses : JS.classList
}.

(** [createProgressItem(step)]. *)
Definition createProgressItem (step : Step) : Item :=
  {| itemClasses := ["progress-item"];
     labelText := label step ++ "&hellip;";
     fillClasses := ["progress-fill"; colour step];
     fillWidth := None;
     fillBackground := None;
     status := TextContent Blank;
     statusClasses := ["status"] |}.

Definition set_itemClasses (f : JS.classList → JS.classList) (it : Item) : Item :=
  mkItem (f (itemClasses it)) (labelText it) (fillClasses it) (fillWidth it)
         (fillBackground it) (status it) (statusClasses it).

Definition set_fillWidth (w : Q) (it : Item) : Item :=
  mkItem (itemClasses it) (labelText it) (fillClasses it) (Some w)
         (fillBackground it) (status it) (statusClasses it).

Definition set_fillBackground (css : string) (it : Item) : Item :=
  mkItem (itemClasses it) (labelText it) (fillClasses it) (fillWidth it)
         (Some css) (status it) (statusClasses it).

Definition set_status (s : statusContent) (it : Item) : Item :=
  mkItem (itemClasses it) (labelText it) (fillClasses it) (fillWidth it)
         (fillBackground it) s (statusClasses it).

Definition set_statusClasses (f : JS.classList → JS.classList) (it : Item) : Item :=
  mkItem (itemClasses it) (labelText it) (fillClasses it) (fillWidth it)
         (fillBackground it) (status it) (f (statusClasses it)).

(** A whole percentage from 0 to 101. *)
Definition isPercentage (q : Q) : bool :=
  Qeq_bool q (inject_Z (Qfloor q)) && (0 <=? Qfloor q)%Z && (Qfloor q <=? 101)%Z.

(** An awaited [animateFill] leaves the fill at its target when the
    duration is positive (the frame loop comes to its end, and no frame
    computes [0 / 0]) and the width of the fill ([0] when it has none)
    and the target are whole percentages from 0 to 101 (the style
    declaration accepts the target, and the last frame writes it without
    rounding: [Binary64.exactOn]).  Otherwise the width the bar is left
    with depends on the frames: on a negative target the last widths are
    dropped by the style declaration, on other numbers the last width is
    rounded. *)
Definition settles (width : option Q) (target duration : Q) : bool :=
  isPercentage (default 0 width) && isPercentage target &&
  negb (Qle_bool duration 0).

(** The effect of one operation of the script on [#progress-list].  The
    item of step [i] is the child number [i] of the list, which the script
    empties first.  [None]: the model does not follow the script through
    an [animateFill] that does not settle on its target (or whose item is
    not in the list, which the script never does). *)
Definition perform1 (steps : list Step) (l : list Item) (o : op)
  : option (list Item) :=
  match o with
  | ClearList => Some []
  | AppendItem i =>
      match steps !! i with
      | Some step => Some (l ++ [createProgressItem step])
      | None => Some l
      end
  | Sleep _ => Some l
  | ItemClass i cls => Some (alter (set_itemClasses (JS.add cls)) i l)
  | AnimateFill i target d =>
      l !! i ≫= λ item,
        if settles (fillWidth item) target d
        then Some (alter (set_fillWidth target) i l)
        else None
  | StatusText i t => Some (alter (set_status (TextContent t)) i l)
  | StatusClass i cls => Some (alter (set_statusClasses (JS.add cls)) i l)
  | FillBackground i css => Some (alter (set_fillBackground css) i l)
  | StatusTick i => Some (alter (set_status TickIcon) i l)
  end.

Fixpoint performAll (steps : list Step) (l : list Item) (script : list op)
  : option (list Item) :=
  match script with
  | [] => Some l
  | o :: rest => perform1 steps l o ≫= λ l', performAll steps l' rest
  end.

(** A step whose animations settle: a positive duration and, if the step
    fails, a whole failure point from 2 to 100. *)
Definition settling (step : Step) : Prop :=
  0 < duration step ∧
  ∀ p, failPoint step = Some p → ∃ n : Z, p == inject_Z n ∧ (2 ≤ n ≤ 100)%Z.

(** The bar of a step once [runProgress] is through with it. *)
Definition finished (step : Step) : Item :=
  match failPoint step with
  | Some p =>
      {| itemClasses := ["progress-item"; "visible"];
         labelText := label step ++ "&hellip;";
         fillClasses := ["progress-fill"; colour step];
         fillWidth := Some (p - 2);
         fillBackground := Some "linear-gradient(90deg, var(--error-red), #E57373)";
         status := TextContent FAILED;
         statusClasses := ["status"; "fail"] |}
  | None =>
      {| itemClasses := ["progress-item"; "visible"];
         labelText := label step ++ "&hellip;";
         fillClasses := ["progress-fill"; colour step];
         fillWidth := Some 100;
         fillBackground := None;
         status := TickIcon;
         statusClasses := ["status"; "done"] |}
  end.

(** The time an operation waits for: the delay of a [sleep], the duration
    of an [animateFill]. *)
Definition awaited (o : op) : Q :=
  match o with
  | Sleep ms => ms
  | AnimateFill _ _ d => d
  | _ => 0
  end.

Definition totalAwaited (script : list op) : Q :=
  foldr (λ o acc, awaited o + acc) 0 script.

(** The time [runProgress] spends on one step. *)
Definition stepTime (step : Step) : Q :=
  match failPoint step with
  | Some p => 500 + duration step * (p / 100) + 3200
  | None => 500 + duration step + 400
  end.

End ProgressDOM.

(** ** video.js *)

Module Video.

Local Open Scope Q_scope.

(** Calls into the browser made by the handlers of [initVideo]. *)
Inductive call : Set :=
| VideoRequestFullscreen
| VideoWebkitRequestFullscreen
| VideoWebkitEnterFullScreen
| ContainerRequestFullscreen
| ContainerWebkitRequestFullscreen
| Warn
| Play
| ExitFullscreen
| WebkitExitFullscreen.

#[global] Instance call_eq_dec : EqDecision call.
Proof. solve_decision. Defined.

Record State : Set := mkState {
  playBtnDisplay : string;       (* [playBtn.style.display] *)
  placeholderDisplay : string;   (* [placeholder.style.display] *)
  continueBtn : JS.classList;
  listeners : nat;               (* calls of [initVideo] that registered
                                    their listeners *)
  calls : list call
}.

(** What [initVideo] reads from the video element and the window. *)
Record Media : Set := mkMedia {
  sourceChild : bool;   (* [video.querySelector('source') !== null] *)
  src : string;         (* [video.src] *)
  href : string         (* [window.location.href] *)
}.

Definition hasSource (m : Media) : bool :=
  sourceChild m ||
  (negb (bool_decide (src m = "")) && negb (bool_decide (src m = "")) &&
   negb (bool_decide (src m = href m))).

Definition initVideo (m : Media) (st : State) : State :=
  if negb (hasSource m) then
    mkState "none" "flex" (JS.add "show" (continueBtn st)) (listeners st) (calls st)
  else
    mkState "flex" "none" (continueBtn st) (S (listeners st)) (calls st).

(** The fullscreen methods of the video and of its container: [None] when
    the method is absent, [Some true] when calling it throws or rejects. *)
Record Fullscreen : Set := mkFullscreen {
  videoRequestFullscreen : option bool;
  videoWebkitRequestFullscreen : option bool;
  videoWebkitEnterFullScreen : option bool;
  containerRequestFullscreen : option bool;
  containerWebkitRequestFullscreen : option bool
}.

(** The body of the outer [try]: the calls made and whether one threw. *)
Definition tryVideo (env : Fullscreen) : list call * bool :=
  match videoRequestFullscreen env with
  | Some thrown => ([VideoRequestFullscreen], thrown)
  | None =>
      match videoWebkitRequestFullscreen env with
      | Some thrown => ([VideoWebkitRequestFullscreen], thrown)
      | None =>
          match videoWebkitEnterFullScreen env with
          | Some thrown => ([VideoWebkitEnterFullScreen], thrown)
          | None => ([], false)
          end
      end
  end.

(** The body of the inner [try]. *)
Definition tryContainer (env : Fullscreen) : list call * bool :=
  match containerRequestFullscreen env with
  | Some thrown => ([ContainerRequestFullscreen], thrown)
  | None =>
      match containerWebkitRequestFullscreen env with
      | Some thrown => ([ContainerWebkitRequestFullscreen], thrown)
      | None => ([], false)
      end
  end.

(** The calls of the two nested [try ... catch]. *)
Definition fullscreenCalls (env : Fullscreen) : list call :=
  let '(made, thrown) := tryVideo env in
  if thrown then
    let '(made2, thrown2) := tryContainer env in
    made ++ made2 ++ (if thrown2 then [Warn] else [])
  else made.

Definition enterFullscreenAndPlay (env : Fullscreen) (st : State) : State :=
  mkState "none" (placeholderDisplay st) (continueBtn st) (listeners st)
          (calls st ++ fullscreenCalls env ++ [Play]).

(** What the handlers read from [document]. *)
Record Document : Set := mkDocument {
  fullscreenElement : bool;
  webkitFullscreenElement : bool;
  exitFullscreen : bool;         (* the method exists *)
  webkitExitFullscreen : bool
}.

(** The listener of the video's [ended] event. *)
Definition onEnded (doc : Document) (st : State) : State :=
  let exits :=
    if fullscreenElement doc || webkitFullscreenElement doc then
      if exitFullscreen doc then [ExitFullscreen]
      else if webkitExitFullscreen doc then [WebkitExitFullscreen]
      else []
    else [] in
  mkState (playBtnDisplay st) (placeholderDisplay st)
          (JS.add "show" (continueBtn st)) (listeners st) (calls st ++ exits).

Definition onFullscreenChange (doc : Document) (currentTime : Q) (st : State) : State :=
  if negb (fullscreenElement doc) && negb (webkitFullscreenElement doc) then
    if Qlt_le_dec 0 currentTime then
      mkState (playBtnDisplay st) (placeholderDisplay st)
              (JS.add "show" (continueBtn st)) (listeners st) (calls st)
    else st
  else st.

Inductive event : Set :=
| InitVideo (m : Media)
| ClickPlay (env : Fullscreen)
| Ended (doc : Document)
| FullscreenChange (doc : Document) (currentTime : Q).

(** An event runs the listener of every call of [initVideo] that
    registered one. *)
Definition handle (st : State) (e : event) : State :=
  match e with
  | InitVideo m => initVideo m st
  | ClickPlay env => Nat.iter (listeners st) (enterFullscreenAndPlay env) st
  | Ended doc => Nat.iter (listeners st) (onEnded doc) st
  | FullscreenChange doc t => Nat.iter (listeners st) (onFullscreenChange doc t) st
  end.

Definition run (st : State) (es : list event) : State := foldl handle st es.

(** An event that cannot reveal the continue button. *)
Definition quiet (e : event) : bool :=
  match e with
  | InitVideo m => hasSource m
  | ClickPlay _ => true
  | Ended _ => false
  | FullscreenChange doc t =>
      fullscreenElement doc || webkitFullscreenElement doc ||
      (if Qlt_le_dec 0 t then false else true)
  end.

End Video.

(** ** model-viewer.js: looking for the model *)

Module ModelViewer.

Definition possiblePaths : list string :=
  ["assets/model/gift.glb"; "assets/model/model.glb";
   "assets/model/gift.gltf"; "assets/model/model.gltf"].

(** The outcome of [fetch(path, { method: 'HEAD' })]. *)
Inductive response : Set :=
| Ok          (* [resp.ok] *)
| NotOk       (* a response that is not ok *)
| Rejected.   (* the promise rejects: caught, the loop goes on *)

Inductive action : Set :=
| Fetch (path : string)
| LoadModel (path : string)
| ShowPlaceholderCube.

#[global] Instance action_eq_dec : EqDecision action.
Proof. solve_decision. Defined.

(** The loop of [findAndLoad] over the paths that are left. *)
Fixpoint findAndLoad (fetch : string → response) (paths : list string)
  : list action :=
  match paths with
  | [] => [ShowPlaceholderCube]
  | path :: rest =>
      Fetch path ::
      match fetch path with
      | Ok => [LoadModel path]
      | NotOk | Rejected => findAndLoad fetch rest
      end
  end.

Definition tryLoadModel (fetch : string → response) : list action :=
  findAndLoad fetch possiblePaths.

(** What ends up in the scene. *)
Inductive scene : Set :=
| Model (path : string)
| PlaceholderCube.

(** [loadModel(path)] with its two callbacks: [loads path] tells whether
    the loader succeeds. *)
Definition loadModel (loads : string → bool) (path : string) : scene :=
  if loads path then Model path else PlaceholderCube.

(** The scene after [tryLoadModel] and the loader's callback. *)
Definition shown (fetch : string → response) (loads : string → bool) : option scene :=
  match last (tryLoadModel fetch) with
  | Some (LoadModel path) => Some (loadModel loads path)
  | Some ShowPlaceholderCube => Some PlaceholderCube
  | _ => None
  end.

End ModelViewer.

(** * Properties *)

(** ** Class lists *)

Section ClassList.

Implicit Types (c d : string) (l : JS.classList).

Lemma contains_true c l : JS.contains c l = true ↔ c ∈ l.
Proof. unfold JS.contains. apply bool_decide_eq_true. Qed.

Lemma contains_add c d l :
  JS.contains c (JS.add d l) = bool_decide (c = d) || JS.contains c l.
Proof.
  unfold JS.add. destruct (JS.contains d l) eqn:Hd.
  - case_bool_decide as Hc; [subst; by rewrite Hd | done].
  - unfold JS.contains. apply eq_true_iff_eq.
    rewrite orb_true_iff, !bool_decide_eq_true, elem_of_app, list_elem_of_singleton.
    tauto.
Qed.

Lemma contains_remove c d l :
  JS.contains c (JS.remove d l) = negb (bool_decide (c = d)) && JS.contains c l.
Proof.
  unfold JS.remove, JS.contains. apply eq_true_iff_eq.
  rewrite andb_true_iff, negb_true_iff, !bool_decide_eq_true,
    bool_decide_eq_false, list_elem_of_filter.
  tauto.
Qed.

Lemma contains_toggle c d force l :
  JS.contains c (JS.toggle d force l) =
    if force then bool_decide (c = d) || JS.contains c l
    else negb (bool_decide (c = d)) && JS.contains c l.
Proof. destruct force; simpl; [apply contains_add | apply contains_remove]. Qed.

End ClassList.

(** ** The story sequencer, one handler at a time *)

Section Handlers.

Implicit Types (p q : Page) (k : nat) (c : Closure) (index : JS.num).

Lemma count_effect_emit P e p :
  count_effect P (emit e p) = (count_effect P p + if P e then 1 else 0)%nat.
Proof.
  unfold count_effect, emit; simpl.
  rewrite filter_app, length_app. f_equal.
  rewrite filter_cons, filter_nil. destruct (P e); by case_decide.
Qed.

Lemma insert_as_alter {A} (f : A → A) (l : list A) k x :
  l !! k = Some x → <[k := f x]> l = alter f k l.
Proof.
  intros Hk. apply list_eq; intros j. destruct (decide (j = k)) as [->|Hne].
  - rewrite list_lookup_insert_eq by (by eapply lookup_lt_Some).
    by rewrite list_lookup_alter_eq, Hk.
  - by rewrite list_lookup_insert_ne, list_lookup_alter_ne.
Qed.

Lemma alter_middle {A} (f : A → A) (l1 l2 : list A) x :
  alter f (length l1) (l1 ++ x :: l2) = l1 ++ f x :: l2.
Proof. induction l1 as [|y l1 IH]; simpl; [done|]. by f_equal. Qed.

Lemma showStep_screens k index a p :
  screens (Suitcase.showStep k index a p) = screens p.
Proof.
  unfold Suitcase.showStep, Suitcase.initMap.
  repeat case_match; reflexivity.
Qed.

Lemma showStep_awaitingProgress k index a p :
  awaitingProgress (Suitcase.showStep k index a p) = awaitingProgress p.
Proof.
  unfold Suitcase.showStep, Suitcase.initMap.
  repeat case_match; reflexivity.
Qed.

Lemma showStep_length_steps k index a p :
  length (steps (Suitcase.showStep k index a p)) = length (steps p).
Proof.
  unfold Suitcase.showStep, Suitcase.initMap.
  repeat case_match; simpl; by rewrite ?length_imap.
Qed.

Lemma showStep_closures k index a p :
  closures (Suitcase.showStep k index a p) =
    alter (λ c, if a then mkClosure (totalSteps c) (currentStep c) true else c)
          k (closures p).
Proof.
  unfold Suitcase.showStep, Suitcase.initMap.
  destruct (closures p !! k) as [c|] eqn:Hk.
  - rewrite <- (insert_as_alter _ _ _ c) by done.
    destruct a; simpl.
    + destruct (transitioning c) eqn:Ht.
      * symmetry. destruct c; simpl in *; subst. by apply list_insert_id.
      * repeat case_match; reflexivity.
    + repeat case_match; reflexivity.
  - symmetry. apply list_eq; intros j. destruct (decide (j = k)) as [->|].
    + by rewrite list_lookup_alter_eq, Hk.
    + by rewrite list_lookup_alter_ne.
Qed.

Lemma showStep_log k index a p :
  log (Suitcase.showStep k index a p) = log p ++ shown k index a p.
Proof.
  unfold Suitcase.showStep, Suitcase.initMap, shown.
  destruct (closures p !! k) as [c|]; [|by rewrite app_nil_r].
  destruct (a && transitioning c); [by rewrite app_nil_r|].
  destruct a, (JS.strictEq index (JS.Num 2)), (mapInitialised p) eqn:Hm;
    simpl; rewrite ?Hm; simpl; rewrite ?Hm; simpl; by rewrite <- ?app_assoc.
Qed.

Lemma showStep_mapInitialised k index a p :
  mapInitialised (Suitcase.showStep k index a p) =
    mapInitialised p || bool_decide (LeafletSetup ∈ shown k index a p).
Proof.
  unfold Suitcase.showStep, Suitcase.initMap, shown.
  destruct (closures p !! k) as [c|]; [|by rewrite orb_false_r].
  destruct (a && transitioning c); [by rewrite orb_false_r|].
  destruct a, (JS.strictEq index (JS.Num 2)), (mapInitialised p) eqn:Hm;
    simpl; rewrite ?Hm; simpl; rewrite ?Hm; reflexivity.
Qed.

Lemma count_effect_log P p q l :
  log q = log p ++ l →
  count_effect P q = (count_effect P p + length (filter (λ e, P e = true) l))%nat.
Proof. unfold count_effect. intros ->. by rewrite filter_app, length_app. Qed.

Lemma isShowMapStep_ShowStep index a :
  isShowMapStep (ShowStep index a) = JS.strictEq index (JS.Num 2).
Proof.
  destruct index as [|z]; [done|]. simpl.
  destruct (Z.eqb_spec z 2) as [->|Hne]; [done|].
  destruct z as [|[[]|[]|]|]; done.
Qed.

Lemma showStep_mapInv k index a p :
  mapInv p → mapInv (Suitcase.showStep k index a p).
Proof.
  intros (HL & HF & HT). unfold mapInv.
  rewrite !(count_effect_log _ p _ _ (showStep_log k index a p)).
  rewrite showStep_mapInitialised. unfold shown.
  destruct (closures p !! k) as [c|];
    [|simpl; rewrite orb_false_r, !Nat.add_0_r; done].
  destruct (a && transitioning c);
    [simpl; rewrite orb_false_r, !Nat.add_0_r; done|].
  rewrite !filter_cons, isShowMapStep_ShowStep. simpl isLeafletSetup.
  destruct (JS.strictEq index (JS.Num 2)), (mapInitialised p) eqn:Hm; simpl;
    repeat case_decide; try done; simpl; rewrite ?HL, ?Nat.add_0_r;
    repeat split; try done; try lia; intros; try done.
Qed.

Lemma showStep_other_index k index a p :
  JS.strictEq index (JS.Num 2) = false →
  mapInitialised (Suitcase.showStep k index a p) = mapInitialised p ∧
  count_effect isLeafletSetup (Suitcase.showStep k index a p)
    = count_effect isLeafletSetup p.
Proof.
  intros Hidx.
  rewrite (count_effect_log _ p _ _ (showStep_log k index a p)).
  rewrite showStep_mapInitialised. unfold shown. rewrite Hidx.
  destruct (closures p !! k) as [c|];
    [|simpl; by rewrite orb_false_r, Nat.add_0_r].
  destruct (a && transitioning c); simpl; by rewrite orb_false_r, Nat.add_0_r.
Qed.

Lemma showStep_noLeaflet k index a p :
  JS.strictEq index (JS.Num 2) = false →
  noLeaflet p → noLeaflet (Suitcase.showStep k index a p).
Proof.
  intros Hidx (Hm & Hc). unfold noLeaflet.
  rewrite (count_effect_log _ p _ _ (showStep_log k index a p)).
  rewrite showStep_mapInitialised. unfold shown. rewrite Hidx, Hm, Hc.
  destruct (closures p !! k) as [c|]; [|done].
  destruct (a && transitioning c); [done|].
  done.
Qed.

(** *** The click listener *)

Lemma onClick_closures k b p :
  closures (Suitcase.onClick k b p) = alter (clicked b) k (closures p).
Proof.
  unfold Suitcase.onClick.
  destruct (closures p !! k) as [c|] eqn:Hk.
  - rewrite <- (insert_as_alter _ _ _ c) by done. unfold clicked.
    destruct b; [by rewrite list_insert_id|].
    destruct (JS.ge _ _); [by rewrite list_insert_id|].
    rewrite showStep_closures. simpl.
    apply list_eq; intros j. destruct (decide (j = k)) as [->|Hne].
    + rewrite list_lookup_alter_eq,
        !list_lookup_insert_eq by (by eapply lookup_lt_Some). done.
    + by rewrite list_lookup_alter_ne, !list_lookup_insert_ne.
  - symmetry. apply list_eq; intros j. destruct (decide (j = k)) as [->|].
    + by rewrite list_lookup_alter_eq, Hk.
    + by rewrite list_lookup_alter_ne.
Qed.

Lemma onClick_screens k b p : screens (Suitcase.onClick k b p) = screens p.
Proof.
  unfold Suitcase.onClick. repeat case_match; try done.
  by rewrite showStep_screens.
Qed.

Lemma onClick_awaitingProgress k b p :
  awaitingProgress (Suitcase.onClick k b p) = awaitingProgress p.
Proof.
  unfold Suitcase.onClick. repeat case_match; try done.
  by rewrite showStep_awaitingProgress.
Qed.

Lemma onClick_length_steps k b p :
  length (steps (Suitcase.onClick k b p)) = length (steps p).
Proof.
  unfold Suitcase.onClick. repeat case_match; try done.
  by rewrite showStep_length_steps.
Qed.

Lemma onClick_mapInv k b p : mapInv p → mapInv (Suitcase.onClick k b p).
Proof.
  intros H. unfold Suitcase.onClick. repeat case_match; try done.
  by apply showStep_mapInv.
Qed.

(** A click runs the listeners one after the other: what every single
    listener preserves, the click preserves. *)
Lemma click_ind (P : Page → Prop) b p :
  P p → (∀ k q, P q → P (Suitcase.onClick k b q)) → P (Suitcase.click b p).
Proof.
  intros Hp Hstep. unfold Suitcase.click.
  generalize (seq 0 (length (closures p))). intros ks.
  revert p Hp. induction ks as [|k ks IH]; intros p Hp; simpl; auto.
Qed.

Lemma click_closures b p :
  closures (Suitcase.click b p) = clicked b <$> closures p.
Proof.
  unfold Suitcase.click.
  assert (∀ n, (n ≤ length (closures p))%nat →
    closures (foldl (λ q k, Suitcase.onClick k b q) p (seq 0 n)) =
      (clicked b <$> take n (closures p)) ++ drop n (closures p)) as H.
  { induction n as [|n IH]; intros Hn.
    - simpl. by rewrite drop_0.
    - rewrite seq_S, foldl_app. simpl. rewrite onClick_closures, IH by lia.
      destruct (lookup_lt_is_Some_2 (closures p) n) as [c Hc]; [lia|].
      rewrite (take_S_r _ _ c), (drop_S _ c n), fmap_app by done. simpl.
      rewrite <- app_assoc. simpl.
      assert (length (clicked b <$> take n (closures p)) = n) as Hlen
        by (rewrite length_fmap, length_take; lia).
      rewrite <- Hlen at 1. by rewrite alter_middle. }
  rewrite H by done. by rewrite firstn_all, drop_all, app_nil_r.
Qed.

Lemma click_screens b p : screens (Suitcase.click b p) = screens p.
Proof.
  apply (click_ind (λ q, screens q = screens p)); [done|].
  intros k q Hq. by rewrite onClick_screens.
Qed.

Lemma click_awaitingProgress b p :
  awaitingProgress (Suitcase.click b p) = awaitingProgress p.
Proof.
  apply (click_ind (λ q, awaitingProgress q = awaitingProgress p)); [done|].
  intros k q Hq. by rewrite onClick_awaitingProgress.
Qed.

Lemma click_length_steps b p :
  length (steps (Suitcase.click b p)) = length (steps p).
Proof.
  apply (click_ind (λ q, length (steps q) = length (steps p))); [done|].
  intros k q Hq. by rewrite onClick_length_steps.
Qed.

Lemma click_mapInv b p : mapInv p → mapInv (Suitcase.click b p).
Proof. intros H. apply click_ind; [done|]. intros; by apply onClick_mapInv. Qed.

(** *** [initSuitcase] *)

Lemma initSuitcase_closures s p :
  closures (Suitcase.initSuitcase s p) =
    closures p ++
    [mkClosure (Z.of_nat (length (steps p)))
       (JS.min (JS.max s (JS.Num 0)) (JS.Num (Z.of_nat (length (steps p)) - 1)))
       false].
Proof.
  unfold Suitcase.initSuitcase. rewrite showStep_closures. simpl.
  apply list_eq; intros j.
  destruct (decide (j = length (closures p))) as [->|Hne].
  - rewrite list_lookup_alter_eq. by rewrite lookup_app_r, Nat.sub_diag.
  - by rewrite list_lookup_alter_ne.
Qed.

Lemma initSuitcase_screens s p :
  screens (Suitcase.initSuitcase s p) = screens p.
Proof. unfold Suitcase.initSuitcase. by rewrite showStep_screens. Qed.

Lemma initSuitcase_awaitingProgress s p :
  awaitingProgress (Suitcase.initSuitcase s p) = awaitingProgress p.
Proof. unfold Suitcase.initSuitcase. by rewrite showStep_awaitingProgress. Qed.

Lemma initSuitcase_length_steps s p :
  length (steps (Suitcase.initSuitcase s p)) = length (steps p).
Proof. unfold Suitcase.initSuitcase. by rewrite showStep_length_steps. Qed.

Lemma initSuitcase_mapInv s p : mapInv p → mapInv (Suitcase.initSuitcase s p).
Proof. intros H. unfold Suitcase.initSuitcase. by apply showStep_mapInv. Qed.

(** *** The transition timer *)

Lemma endTransition_closures k p :
  closures (Suitcase.endTransition k p) =
    alter (λ c, mkClosure (totalSteps c) (currentStep c) false) k (closures p).
Proof.
  unfold Suitcase.endTransition.
  destruct (closures p !! k) as [c|] eqn:Hk.
  - simpl. by apply (insert_as_alter (λ c, mkClosure (totalSteps c) (currentStep c) false)).
  - symmetry. apply list_eq; intros j. destruct (decide (j = k)) as [->|].
    + by rewrite list_lookup_alter_eq, Hk.
    + by rewrite list_lookup_alter_ne.
Qed.

End Handlers.

(** ** Which slide and which screen is active *)

Section Active.

Lemma contains_active_stepClasses index i cl :
  JS.contains "active" (Suitcase.stepClasses index i cl) =
    JS.strictEq (JS.Num (Z.of_nat i)) index.
Proof.
  unfold Suitcase.stepClasses.
  destruct (JS.strictEq _ _); [|destruct (JS.lt _ _)];
    rewrite ?contains_add, ?contains_remove; done.
Qed.

Lemma contains_active_dotClasses index i cl :
  JS.contains "active" (Suitcase.dotClasses index i cl) =
    JS.strictEq (JS.Num (Z.of_nat i)) index.
Proof.
  unfold Suitcase.dotClasses. rewrite contains_toggle.
  destruct (JS.strictEq _ _); done.
Qed.

Lemma filter_ext_in {A} (P Q : A → Prop) `{∀ x, Decision (P x)}
    `{∀ x, Decision (Q x)} (l : list A) :
  (∀ x, x ∈ l → P x ↔ Q x) → filter P l = filter Q l.
Proof.
  induction l as [|x l IH]; intros Hl; [done|].
  rewrite !filter_cons, IH by (intros; apply Hl; by apply list_elem_of_further).
  specialize (Hl x (list_elem_of_here _ _)). repeat case_decide; try done; tauto.
Qed.

(** The indices of the elements of [imap g l] that carry [active], when
    [g] decides the class by the index alone. *)
Lemma active_imap (g : nat → JS.classList → JS.classList) (sel : nat → bool)
    (l : list JS.classList) :
  (∀ i cl, JS.contains "active" (g i cl) = sel i) →
  activeIn (imap g l) = filter (λ i, sel i = true) (seq 0 (length l)).
Proof.
  intros Hg. unfold activeIn. rewrite length_imap.
  apply filter_ext_in. intros i Hi. apply elem_of_seq in Hi.
  rewrite list_lookup_imap.
  destruct (lookup_lt_is_Some_2 l i) as [cl ->]; [lia|]. simpl.
  rewrite Hg. split; congruence.
Qed.

Lemma filter_seq_index (z : Z) (n : nat) :
  filter (λ i, JS.strictEq (JS.Num (Z.of_nat i)) (JS.Num z) = true) (seq 0 n)
  = if decide (0 ≤ z < Z.of_nat n) then [Z.to_nat z] else [].
Proof.
  induction n as [|n IH]; [by case_decide; [lia|]|].
  rewrite seq_S, filter_app, IH. simpl. rewrite filter_cons, filter_nil.
  destruct (Z.eqb_spec (Z.of_nat n) z) as [<-|Hne];
    repeat case_decide; try lia; try done; simpl.
  by rewrite Nat2Z.id.
Qed.

Lemma filter_seq_NaN (n : nat) :
  filter (λ i, JS.strictEq (JS.Num (Z.of_nat i)) JS.NaN = true) (seq 0 n) = [].
Proof.
  induction n as [|n IH]; [done|].
  rewrite seq_S, filter_app, IH. simpl. rewrite filter_cons, filter_nil.
  by case_decide.
Qed.

(** What [showStep] leaves on the slides and on the dots, when its
    guard lets it through. *)
Lemma showStep_steps k index a p c :
  closures p !! k = Some c → a && transitioning c = false →
  steps (Suitcase.showStep k index a p) = imap (Suitcase.stepClasses index) (steps p) ∧
  dots (Suitcase.showStep k index a p) = imap (Suitcase.dotClasses index) (dots p) ∧
  tapHint (Suitcase.showStep k index a p) =
    (if JS.ge index (JS.Num (totalSteps c - 1)) then "none" else "").
Proof.
  intros Hk Hg. unfold Suitcase.showStep, Suitcase.initMap. rewrite Hk, Hg.
  repeat case_match; done.
Qed.

Lemma activeSteps_showStep k index a p c :
  closures p !! k = Some c → a && transitioning c = false →
  activeSteps (Suitcase.showStep k index a p) =
    filter (λ i, JS.strictEq (JS.Num (Z.of_nat i)) index = true)
           (seq 0 (length (steps p))).
Proof.
  intros Hk Hg. unfold activeSteps.
  destruct (showStep_steps k index a p c Hk Hg) as (-> & _).
  apply active_imap. intros; apply contains_active_stepClasses.
Qed.

Lemma activeDots_showStep k index a p c :
  closures p !! k = Some c → a && transitioning c = false →
  activeDots (Suitcase.showStep k index a p) =
    filter (λ i, JS.strictEq (JS.Num (Z.of_nat i)) index = true)
           (seq 0 (length (dots p))).
Proof.
  intros Hk Hg. unfold activeDots.
  destruct (showStep_steps k index a p c Hk Hg) as (_ & -> & _).
  apply active_imap. intros; apply contains_active_dotClasses.
Qed.

(** *** Screens *)

Lemma activate_key name entry : (App.activate name entry).1 = entry.1.
Proof. unfold App.activate. by case_bool_decide. Qed.

Lemma activate_active name entry :
  JS.contains "active" (App.activate name entry).2 = bool_decide (entry.1 = name).
Proof.
  unfold App.activate. case_bool_decide; simpl.
  - by rewrite contains_add.
  - by rewrite contains_remove.
Qed.

Lemma onError_key f entry : (App.onError f entry).1 = entry.1.
Proof. unfold App.onError. by case_bool_decide. Qed.

Lemma onError_active f entry :
  (∀ el, JS.contains "active" (f el) = JS.contains "active" el) →
  JS.contains "active" (App.onError f entry).2 = JS.contains "active" entry.2.
Proof. intros Hf. unfold App.onError. case_bool_decide; simpl; by rewrite ?Hf. Qed.

Lemma keys_showScreen name p : keys (App.showScreen name p) = keys p.
Proof.
  unfold keys, App.showScreen; simpl.
  induction (screens p) as [|entry l IH]; [done|].
  rewrite map_cons, !fmap_cons, IH. by rewrite activate_key.
Qed.

Lemma activeScreens_showScreen name p :
  activeScreens (App.showScreen name p) = filter (λ key, key = name) (keys p).
Proof.
  unfold activeScreens, keys, App.showScreen; simpl.
  induction (screens p) as [|entry l IH]; [done|].
  rewrite map_cons, fmap_cons, !filter_cons, activate_active.
  case_bool_decide; repeat case_decide; try done.
  by rewrite fmap_cons, activate_key, IH.
Qed.

Lemma keys_onErrorScreen f p : keys (App.onErrorScreen f p) = keys p.
Proof.
  unfold keys, App.onErrorScreen; simpl.
  induction (screens p) as [|entry l IH]; [done|].
  rewrite map_cons, !fmap_cons, IH. by rewrite onError_key.
Qed.

Lemma activeScreens_onErrorScreen f p :
  (∀ el, JS.contains "active" (f el) = JS.contains "active" el) →
  activeScreens (App.onErrorScreen f p) = activeScreens p.
Proof.
  intros Hf. unfold activeScreens, App.onErrorScreen; simpl.
  induction (screens p) as [|entry l IH]; [done|].
  rewrite map_cons, !filter_cons, onError_active by done.
  case_decide; [|done]. by rewrite !fmap_cons, onError_key, IH.
Qed.

Lemma filter_eq_NoDup (name : string) (l : list string) :
  NoDup l → (length (filter (λ key, key = name) l) ≤ 1)%nat.
Proof.
  induction 1 as [|key l Hnotin Hnd IH]; [simpl; lia|].
  rewrite filter_cons. case_decide as Hkey; [|done].
  subst. simpl.
  assert (filter (λ key, key = name) l = []) as ->; [|simpl; lia].
  clear IH Hnd. induction l as [|x l IHl]; [done|].
  rewrite filter_cons. case_decide; [subst; destruct Hnotin; left|].
  apply IHl. intros ?; apply Hnotin; by right.
Qed.

End Active.

(** ** Runs of the page *)

Section Runs.

Implicit Types (p q : Page) (e : event) (es : list event).

Lemma run_snoc p es e : run p (es ++ [e]) = handle (run p es) e.
Proof. unfold run. by rewrite foldl_app. Qed.

Lemma run_ind (P : Page → Prop) p es :
  P p → (∀ q e, e ∈ es → P q → P (handle q e)) → P (run p es).
Proof.
  revert p. induction es as [|e es IH]; intros p Hp Hstep; [done|].
  simpl. apply IH.
  - apply Hstep; [left|done].
  - intros q e' He'. apply Hstep. by right.
Qed.

Lemma mapInv_frame p q l :
  log q = log p ++ l → mapInitialised q = mapInitialised p →
  filter (λ x, isLeafletSetup x = true) l = [] →
  filter (λ x, isShowMapStep x = true) l = [] →
  mapInv p → mapInv q.
Proof.
  intros Hlog Hm HL HS (H1 & H2 & H3). unfold mapInv.
  rewrite !(count_effect_log _ p q l Hlog), HL, HS, Hm, !Nat.add_0_r. done.
Qed.

Lemma mapInv_same p q :
  log q = log p → mapInitialised q = mapInitialised p → mapInv p → mapInv q.
Proof.
  intros Hlog Hm. apply (mapInv_frame p q []); [by rewrite app_nil_r|done..].
Qed.

Lemma mapInv_load d : mapInv (load d).
Proof. by repeat split. Qed.

Lemma startFlow_mapInv p : mapInv p → mapInv (App.startFlow p).
Proof. by apply (mapInv_frame _ _ [RunProgress]). Qed.

Lemma showScreen_mapInv name p : mapInv p → mapInv (App.showScreen name p).
Proof. by apply mapInv_same. Qed.

Lemma jumpTo_mapInv suitcaseStep name p :
  mapInv p → mapInv (App.jumpTo suitcaseStep name p).
Proof.
  intros Hp. apply (showScreen_mapInv name) in Hp. unfold App.jumpTo.
  repeat case_bool_decide; try done.
  - by apply initSuitcase_mapInv.
  - by apply (mapInv_frame (App.showScreen name p) _ [InitModelViewer]).
  - by apply startFlow_mapInv.
Qed.

Lemma init_mapInv skipTo suitcaseStep p :
  mapInv p → mapInv (App.init skipTo suitcaseStep p).
Proof.
  intros Hp. unfold App.init.
  repeat case_match; by (apply startFlow_mapInv || apply jumpTo_mapInv).
Qed.

Lemma handle_mapInv p e : mapInv p → mapInv (handle p e).
Proof.
  intros Hp. destruct e as [| |b|i|]; simpl.
  - by apply initSuitcase_mapInv, showScreen_mapInv.
  - by apply (mapInv_frame p _ [InitModelViewer]).
  - by apply click_mapInv.
  - destruct (timers p !! i) as [[k| |]|]; simpl; try done.
    unfold Suitcase.endTransition; simpl. by case_match.
  - by case_match.
Qed.

Lemma advance_refl c : advance c c.
Proof. split; [done|by left]. Qed.

Lemma advance_clicked b c : advance c (clicked b c).
Proof.
  unfold clicked. destruct b; [apply advance_refl|].
  destruct (JS.ge _ _) eqn:Hge; [apply advance_refl|].
  split; [done|by right].
Qed.

Lemma handle_closure p e k c :
  closures p !! k = Some c →
  ∃ c', closures (handle p e) !! k = Some c' ∧ advance c c'.
Proof.
  intros Hk. destruct e as [| |b|i|]; simpl.
  - exists c. split; [|apply advance_refl].
    unfold App.onNextSteps. rewrite initSuitcase_closures. simpl.
    by apply lookup_app_l_Some.
  - exists c. split; [done|apply advance_refl].
  - exists (clicked b c). split; [|apply advance_clicked].
    by rewrite click_closures, list_lookup_fmap, Hk.
  - destruct (timers p !! i) as [[j| |]|]; simpl;
      try (exists c; split; [done|apply advance_refl]).
    rewrite endTransition_closures. simpl.
    destruct (decide (k = j)) as [->|Hne].
    + rewrite list_lookup_alter_eq, Hk. simpl. eexists; split; [done|].
      split; [done|by left].
    + rewrite list_lookup_alter_ne by done.
      exists c; split; [done|apply advance_refl].
  - exists c. split; [by case_match|apply advance_refl].
Qed.

Lemma handle_length_steps p e : length (steps (handle p e)) = length (steps p).
Proof.
  destruct e as [| |b|i|]; simpl; try done.
  - unfold App.onNextSteps. by rewrite initSuitcase_length_steps.
  - by rewrite click_length_steps.
  - destruct (timers p !! i) as [[j| |]|]; simpl; try done.
    unfold Suitcase.endTransition. by case_match.
  - by case_match.
Qed.

End Runs.

(** ** The story sequencer: properties *)

Section Story.

Implicit Types (p q : Page) (e : event) (es : list event).

Lemma ge_last (t : Z) : JS.ge (JS.Num (t - 1)) (JS.Num (t - 1)) = true.
Proof. simpl. apply Z.leb_refl. Qed.

Lemma onClick_last k b p c :
  closures p !! k = Some c →
  currentStep c = JS.Num (totalSteps c - 1) →
  Suitcase.onClick k b p = p.
Proof.
  intros Hk Hc. unfold Suitcase.onClick. rewrite Hk, Hc, ge_last.
  by destruct b.
Qed.

Lemma clicked_past b c :
  (∃ z, currentStep c = JS.Num z ∧ 2 < z) →
  ∃ z, currentStep (clicked b c) = JS.Num z ∧ 2 < z.
Proof.
  intros (z & Hz & Hlt). unfold clicked.
  destruct b; [by eauto|]. destruct (JS.ge _ _); [by eauto|].
  exists (z + 1). rewrite Hz. simpl. split; [done|lia].
Qed.

Lemma onClick_pastMapStep k b p : pastMapStep p → pastMapStep (Suitcase.onClick k b p).
Proof.
  intros (Hno & Hall). split.
  - unfold Suitcase.onClick.
    destruct (closures p !! k) as [c|] eqn:Hk; [|done].
    destruct b; [done|]. destruct (JS.ge _ _); [done|].
    destruct (Forall_lookup_1 _ _ _ _ Hall Hk) as (z & Hz & Hlt).
    apply showStep_noLeaflet; [|done].
    rewrite Hz. simpl. apply Z.eqb_neq. lia.
  - rewrite onClick_closures. apply Forall_alter; [done|].
    intros c _. apply clicked_past.
Qed.

Lemma handle_pastMapStep p e :
  e ≠ ClickNextSteps → pastMapStep p → pastMapStep (handle p e).
Proof.
  intros He Hp. destruct e as [| |b|i|]; simpl; try done.
  - destruct Hp as ((Hm & Hc) & Hall). split; [split|]; [done| |done].
    unfold App.onShowGift. rewrite count_effect_emit. simpl.
    rewrite Nat.add_0_r. exact Hc.
  - apply click_ind; [done|]. intros; by apply onClick_pastMapStep.
  - destruct (timers p !! i) as [[k| |]|]; simpl; try done.
    destruct Hp as (Hno & Hall). split.
    + unfold Suitcase.endTransition. simpl. by case_match.
    + rewrite endTransition_closures. simpl. apply Forall_alter; [done|].
      intros c _ Hc. done.
  - by case_match.
Qed.

Lemma init_suitcase suitcaseStep d :
  App.init (Some "suitcase") suitcaseStep (load d) =
    Suitcase.initSuitcase
      (match suitcaseStep with
       | Some s => JS.parseInt s
       | None => JS.Num 0
       end)
      (App.showScreen "suitcase" (load d)).
Proof. reflexivity. Qed.

Lemma clamp_valid (s total : Z) :
  0 ≤ s ≤ total - 1 →
  JS.min (JS.max (JS.Num s) (JS.Num 0)) (JS.Num (total - 1)) = JS.Num s.
Proof. intros Hs. simpl. f_equal. lia. Qed.

End Story.

(** C4. After [initSuitcase(startAt)] with a valid [startAt], in every run
    and at every event, the closure's [currentStep] lies in
    [0 .. totalSteps - 1], never decreases, and moves by at most one; the
    initialisation is the only assignment that is not an increment. *)
Theorem currentStep_in_range_and_monotone
    (p0 : Page) (s : Z) (es : list event) (e : event) :
  0 ≤ s ≤ Z.of_nat (length (steps p0)) - 1 →
  let total := Z.of_nat (length (steps p0)) in
  let k := length (closures p0) in
  let p1 := Suitcase.initSuitcase (JS.Num s) p0 in
  let p := run p1 es in
  (currentStep <$> closures p1 !! k) = Some (JS.Num s) ∧
  ∃ z z',
    (currentStep <$> closures p !! k) = Some (JS.Num z) ∧
    (currentStep <$> closures (handle p e) !! k) = Some (JS.Num z') ∧
    s ≤ z ∧ 0 ≤ z ≤ total - 1 ∧ 0 ≤ z' ≤ total - 1 ∧
    (z' = z ∨ z' = z + 1).
Proof.
  intros Hs total k p1 p.
  assert (closures p1 !! k = Some (mkClosure total (JS.Num s) false)) as H1.
  { unfold p1. rewrite initSuitcase_closures, clamp_valid by done.
    by rewrite lookup_app_r, Nat.sub_diag. }
  split; [by rewrite H1|].
  assert (∃ c z, closures p !! k = Some c ∧ totalSteps c = total ∧
                 currentStep c = JS.Num z ∧ s ≤ z ≤ total - 1) as (c & z & Hk & Ht & Hc & Hz).
  { unfold p. apply run_ind.
    - exists (mkClosure total (JS.Num s) false), s. repeat split; try done; try lia.
    - intros q e' _ (c & z & Hk & Ht & Hc & Hz).
      destruct (handle_closure q e' k c Hk) as (c' & Hk' & Ht' & Hadv).
      exists c'. destruct Hadv as [Heq|[Hge Hinc]].
      + exists z. repeat split; try done; try congruence; try lia.
      + exists (z + 1). rewrite Hc, Ht in Hge. simpl in Hge.
        apply Z.leb_gt in Hge. rewrite Hinc, Hc. simpl.
        repeat split; try done; try congruence; try lia. }
  destruct (handle_closure p e k c Hk) as (c' & Hk' & Ht' & Hadv).
  destruct Hadv as [Heq|[Hge Hinc]].
  - exists z, z. rewrite Hk, Hk'. simpl. rewrite Heq, Hc.
    repeat split; try done; try lia.
  - exists z, (z + 1). rewrite Hk, Hk'. simpl. rewrite Hinc, Hc. simpl.
    rewrite Hc, Ht in Hge. simpl in Hge. apply Z.leb_gt in Hge.
    repeat split; try done; try lia.
Qed.

Lemma currentStep_in_range_and_monotone_witness :
  ∃ z z',
    (currentStep <$> closures (run (Suitcase.initSuitcase (JS.Num 1) (load sampleDOM))
                                   [ClickStory false; TimerFires 0]) !! 0%nat)
      = Some (JS.Num z) ∧
    (currentStep <$> closures (handle (run (Suitcase.initSuitcase (JS.Num 1) (load sampleDOM))
                                           [ClickStory false; TimerFires 0])
                                      (ClickStory false)) !! 0%nat)
      = Some (JS.Num z') ∧
    (z' = z ∨ z' = z + 1).
Proof.
  destruct (currentStep_in_range_and_monotone (load sampleDOM) 1
              [ClickStory false; TimerFires 0%nat] (ClickStory false))
    as (_ & z & z' & H1 & H2 & _ & _ & _ & H3).
  - simpl. lia.
  - exists z, z'. auto.
Defined.

(** The map is never set up twice.  Over a whole page session, whatever
    the deep link and the events (taps, timers, further runs of
    [initSuitcase]), the set-up has run once if [showStep] has shown the
    map step, and not at all otherwise. *)
Lemma map_set_up_once_shown
    (skipTo suitcaseStep : option string) (d : DOM) (es : list event) :
  let p := run (App.init skipTo suitcaseStep (load d)) es in
  count_effect isLeafletSetup p = Nat.min 1 (count_effect isShowMapStep p).
Proof.
  intros p.
  assert (mapInv p) as (HL & HF & HT).
  { unfold p. apply run_ind.
    - apply init_mapInv, mapInv_load.
    - intros q e _. apply handle_mapInv. }
  rewrite HL. destruct (mapInitialised p).
  - specialize (HT eq_refl). lia.
  - by rewrite HF.
Qed.

(** A call of [showStep] that shows index 2 leaves the map set up. *)
Lemma shown_map_step_sets_map_up k a p c :
  closures p !! k = Some c → a && transitioning c = false → mapInv p →
  mapInitialised (Suitcase.showStep k (JS.Num 2) a p) = true ∧
  count_effect isLeafletSetup (Suitcase.showStep k (JS.Num 2) a p) = 1%nat.
Proof.
  intros Hk Hg Hinv.
  assert (mapInitialised (Suitcase.showStep k (JS.Num 2) a p) = true) as Hm.
  { rewrite showStep_mapInitialised. unfold shown. rewrite Hk, Hg.
    by destruct (mapInitialised p). }
  split; [done|].
  destruct (showStep_mapInv k (JS.Num 2) a p Hinv) as (Hcount & _).
  by rewrite Hcount, Hm.
Qed.

(** C9. A tap on the story container while the closure is on its last
    slide changes nothing at all: the listener returns the page as it
    found it; and when every registered listener is on its last slide the
    whole click leaves the page unchanged. *)
Theorem tap_on_last_step_changes_nothing (p : Page) (onGiftButton : bool) :
  (∀ k c, closures p !! k = Some c →
          currentStep c = JS.Num (totalSteps c - 1) →
          Suitcase.onClick k onGiftButton p = p) ∧
  ((∀ c, c ∈ closures p → currentStep c = JS.Num (totalSteps c - 1)) →
   handle p (ClickStory onGiftButton) = p).
Proof.
  split; [intros k c; apply onClick_last|].
  intros Hall. simpl. apply (click_ind (λ q, q = p)); [done|].
  intros k q ->. destruct (closures p !! k) as [c|] eqn:Hk.
  - apply (onClick_last k _ p c Hk), Hall. by eapply list_elem_of_lookup_2.
  - unfold Suitcase.onClick. by rewrite Hk.
Qed.

Lemma tap_on_last_step_changes_nothing_witness :
  Suitcase.onClick 0 false (samplePage (Some "3")) = samplePage (Some "3") ∧
  handle (samplePage (Some "3")) (ClickStory false) = samplePage (Some "3").
Proof.
  destruct (tap_on_last_step_changes_nothing (samplePage (Some "3")) false)
    as [H1 H2].
  split.
  - apply (H1 0%nat (mkClosure 4 (JS.Num 3) false)); reflexivity.
  - apply H2. intros c Hc. vm_compute in Hc.
    apply list_elem_of_singleton in Hc. by subst.
Defined.

(** C10. [showStep] sets the map up only when its index is exactly 2.  So a
    deep link to a valid step beyond the map step never sets the map up:
    not on entry, and (as long as [initSuitcase] is not run again by the
    Next Steps button) not at any later tap or timer either. *)
Theorem deep_link_past_map_step_skips_map
    (d : DOM) (step : string) (s : Z) (es : list event) :
  JS.parseInt step = JS.Num s →
  2 < s ≤ Z.of_nat (length (suitcaseSteps d)) - 1 →
  ClickNextSteps ∉ es →
  let p0 := App.init (Some "suitcase") (Some step) (load d) in
  (mapInitialised p0 = false ∧ count_effect isLeafletSetup p0 = 0%nat) ∧
  (mapInitialised (run p0 es) = false ∧
   count_effect isLeafletSetup (run p0 es) = 0%nat) ∧
  (∀ k index animate q,
     JS.strictEq index (JS.Num 2) = false →
     mapInitialised (Suitcase.showStep k index animate q) = mapInitialised q ∧
     count_effect isLeafletSetup (Suitcase.showStep k index animate q)
       = count_effect isLeafletSetup q).
Proof.
  intros Hparse Hs Hes p0.
  assert (pastMapStep p0) as Hp0.
  { unfold p0. rewrite init_suitcase, Hparse. split.
    - unfold Suitcase.initSuitcase. apply showStep_noLeaflet; [|done].
      simpl. apply Z.eqb_neq. lia.
    - rewrite initSuitcase_closures.
      change (steps (App.showScreen "suitcase" (load d))) with (suitcaseSteps d).
      rewrite clamp_valid by lia. apply Forall_singleton.
      exists s. split; [done|lia]. }
  split; [apply Hp0|]. split.
  - enough (pastMapStep (run p0 es)) as H by apply H.
    apply run_ind; [done|].
    intros q e He. apply handle_pastMapStep. by intros ->.
  - intros k index animate q. apply showStep_other_index.
Qed.

Lemma deep_link_past_map_step_skips_map_witness :
  mapInitialised (run (samplePage (Some "3"))
                      [ClickStory false; TimerFires 0; ClickShowGift]) = false.
Proof.
  refine (proj1 (proj1 (proj2
    (deep_link_past_map_step_skips_map sampleDOM "3" 3
       [ClickStory false; TimerFires 0%nat; ClickShowGift] _ _ _)))).
  - reflexivity.
  - simpl. lia.
  - intros H. repeat (apply elem_of_cons in H as [H|H]; [discriminate H|]).
    by apply elem_of_nil in H.
Defined.

(** ** The flow controller: properties *)

Section Screens.

Implicit Types (p q : Page).

Lemma screenKeys_NoDup : NoDup screenKeys.
Proof. by apply (bool_decide_unpack _). Qed.

Lemma activeScreens_same p q : screens q = screens p → activeScreens q = activeScreens p.
Proof. unfold activeScreens. by intros ->. Qed.

Lemma screensInv_same p q : screens q = screens p → screensInv p → screensInv q.
Proof.
  intros Hs (Hk & Ha). unfold screensInv, keys.
  by rewrite (activeScreens_same p q), Hs.
Qed.

Lemma showScreen_screensInv name p :
  keys p = screenKeys → screensInv (App.showScreen name p).
Proof.
  intros Hk. split; [by rewrite keys_showScreen|].
  rewrite activeScreens_showScreen, Hk.
  apply filter_eq_NoDup, screenKeys_NoDup.
Qed.

Lemma onErrorScreen_screensInv f p :
  (∀ el, JS.contains "active" (f el) = JS.contains "active" el) →
  screensInv p → screensInv (App.onErrorScreen f p).
Proof.
  intros Hf (Hk & Ha). split; [by rewrite keys_onErrorScreen|].
  by rewrite activeScreens_onErrorScreen.
Qed.

Lemma startFlow_screensInv p : keys p = screenKeys → screensInv (App.startFlow p).
Proof.
  intros Hk. apply (screensInv_same (App.showScreen "progress" p)); [done|].
  by apply showScreen_screensInv.
Qed.

Lemma init_screensInv skipTo suitcaseStep d :
  screensInv (App.init skipTo suitcaseStep (load d)).
Proof.
  assert (keys (load d) = screenKeys) as Hk by done.
  unfold App.init.
  destruct skipTo as [name|]; [|by apply startFlow_screensInv].
  destruct (_ && _); [|by apply startFlow_screensInv].
  unfold App.jumpTo.
  pose proof (showScreen_screensInv name _ Hk) as Hshow.
  repeat case_bool_decide; try done.
  - eapply screensInv_same; [apply initSuitcase_screens|done].
  - apply startFlow_screensInv, Hshow.
Qed.

Lemma handle_screensInv p e : screensInv p → screensInv (handle p e).
Proof.
  intros Hp. pose proof Hp as (Hk & Ha).
  destruct e as [| |b|i|]; simpl.
  - eapply screensInv_same; [apply initSuitcase_screens|].
    by apply showScreen_screensInv.
  - apply (screensInv_same (App.showScreen "model" p)); [done|].
    by apply showScreen_screensInv.
  - eapply screensInv_same; [apply click_screens|done].
  - destruct (timers p !! i) as [[k| |]|]; simpl; try done.
    + eapply screensInv_same; [|exact Hp].
      unfold Suitcase.endTransition. by case_match.
    + apply (screensInv_same
               (App.onErrorScreen (λ el, JS.add "shake" (JS.remove "flash" el)) p));
        [done|].
      apply onErrorScreen_screensInv; [|done].
      intros el. by rewrite contains_add, contains_remove.
    + apply (screensInv_same (App.onErrorScreen (JS.remove "shake") p)); [done|].
      apply onErrorScreen_screensInv; [|done].
      intros el. by rewrite contains_remove.
  - destruct (awaitingProgress p); [|done].
    apply (screensInv_same
             (App.onErrorScreen (JS.add "flash") (App.showScreen "error" p)));
      [done|].
    apply onErrorScreen_screensInv.
    + intros el. by rewrite contains_add.
    + by apply showScreen_screensInv.
Qed.

Lemma shown_no_RunProgress k index a p :
  filter (λ x, isRunProgress x = true) (shown k index a p) = [].
Proof.
  unfold shown. repeat case_match; try done;
    rewrite ?filter_cons; simpl; by repeat case_decide.
Qed.

Lemma showStep_RunProgress k index a p :
  count_effect isRunProgress (Suitcase.showStep k index a p)
  = count_effect isRunProgress p.
Proof.
  rewrite (count_effect_log _ p _ _ (showStep_log k index a p)).
  by rewrite shown_no_RunProgress, Nat.add_0_r.
Qed.

Lemma handle_RunProgress p e :
  count_effect isRunProgress (handle p e) = count_effect isRunProgress p.
Proof.
  destruct e as [| |b|i|]; simpl.
  - unfold App.onNextSteps, Suitcase.initSuitcase. by rewrite showStep_RunProgress.
  - unfold App.onShowGift. rewrite count_effect_emit. simpl. by rewrite Nat.add_0_r.
  - apply (click_ind (λ q, count_effect isRunProgress q = count_effect isRunProgress p));
      [done|].
    intros k q <-. unfold Suitcase.onClick. repeat case_match; try done.
    by rewrite showStep_RunProgress.
  - destruct (timers p !! i) as [[k| |]|]; simpl; try done.
    unfold Suitcase.endTransition. by case_match.
  - by case_match.
Qed.

End Screens.

(** C8. [showScreen(name)] leaves exactly the named screen active; in every
    run of the page, after every handler, at most one screen is active;
    and the story sequencer never touches the class list of a screen. *)
Theorem at_most_one_active_screen :
  (∀ name p key,
     key ∈ activeScreens (App.showScreen name p) ↔ key = name ∧ key ∈ keys p) ∧
  (∀ skipTo suitcaseStep d es,
     (length (activeScreens (run (App.init skipTo suitcaseStep (load d)) es)) ≤ 1)%nat) ∧
  (∀ p startAt onGiftButton k,
     screens (Suitcase.initSuitcase startAt p) = screens p ∧
     screens (Suitcase.click onGiftButton p) = screens p ∧
     screens (Suitcase.endTransition k p) = screens p ∧
     screens (Suitcase.initMap p) = screens p).
Proof.
  split; [|split].
  - intros name p key. rewrite activeScreens_showScreen, list_elem_of_filter. tauto.
  - intros skipTo suitcaseStep d es.
    enough (screensInv (run (App.init skipTo suitcaseStep (load d)) es)) as H by apply H.
    apply run_ind; [apply init_screensInv|].
    intros q e _. apply handle_screensInv.
  - intros p startAt b k. repeat split.
    + apply initSuitcase_screens.
    + apply click_screens.
    + unfold Suitcase.endTransition. by case_match.
    + unfold Suitcase.initMap. by case_match.
Qed.

(** C2, as the code has it.  The screen of the story is named [suitcase]:
    with [screen=suitcase&step=2], and a story of at least three slides,
    the story screen is the active one, slide 2 is the active slide, the
    map has been set up, and the default flow has not been started, nor is
    it started by any later event. *)
Theorem deep_link_to_map_step (d : DOM) (es : list event) :
  (3 ≤ length (suitcaseSteps d))%nat →
  let p := App.init (Some "suitcase") (Some "2") (load d) in
  showsStoryAtMapStep p ∧
  closures p = [mkClosure (Z.of_nat (length (suitcaseSteps d))) (JS.Num 2) false] ∧
  awaitingProgress p = false ∧
  count_effect isRunProgress (run p es) = 0%nat.
Proof.
  intros Hlen p.
  assert (p = Suitcase.showStep 0 (JS.Num 2) false
                (set_closures [mkClosure (Z.of_nat (length (suitcaseSteps d))) (JS.Num 2) false]
                              (App.showScreen "suitcase" (load d)))) as Hp.
  { unfold p. rewrite init_suitcase. unfold Suitcase.initSuitcase.
    change (JS.parseInt "2") with (JS.Num 2).
    change (steps (App.showScreen "suitcase" (load d))) with (suitcaseSteps d).
    rewrite clamp_valid by lia. reflexivity. }
  assert (count_effect isRunProgress p = 0%nat) as Hrun.
  { rewrite Hp, showStep_RunProgress. reflexivity. }
  repeat split.
  - rewrite Hp. unfold activeScreens. rewrite showStep_screens.
    change (activeScreens (App.showScreen "suitcase" (load d)) = ["suitcase"]).
    by rewrite activeScreens_showScreen.
  - rewrite Hp. erewrite activeSteps_showStep; [|reflexivity|reflexivity].
    simpl steps. rewrite filter_seq_index. case_decide; [done|lia].
  - rewrite Hp, showStep_mapInitialised. reflexivity.
  - rewrite Hp, (count_effect_log _ _ _ _ (showStep_log _ _ _ _)). reflexivity.
  - done.
  - rewrite Hp, showStep_closures. reflexivity.
  - rewrite Hp, showStep_awaitingProgress. reflexivity.
  - apply (run_ind (λ q, count_effect isRunProgress q = 0%nat)); [done|].
    intros q e _ Hq. by rewrite handle_RunProgress.
Qed.

Lemma deep_link_to_map_step_witness :
  showsStoryAtMapStep (samplePage (Some "2")).
Proof.
  apply (deep_link_to_map_step sampleDOM []). simpl. lia.
Defined.

(** C2, as it is stated.  The value [story] is not a key of [screens]:
    the link [screen=story&step=2] starts the default flow on the progress
    screen, with no slide shown and no map. *)
Lemma story_deep_link_starts_default_flow :
  ¬ showsStoryAtMapStep (App.init (Some "story") (Some "2") (load sampleDOM)) ∧
  activeScreens (App.init (Some "story") (Some "2") (load sampleDOM)) = ["progress"] ∧
  activeSteps (App.init (Some "story") (Some "2") (load sampleDOM)) = [] ∧
  mapInitialised (App.init (Some "story") (Some "2") (load sampleDOM)) = false ∧
  count_effect isRunProgress (App.init (Some "story") (Some "2") (load sampleDOM)) = 1%nat.
Proof.
  split; [|by vm_compute].
  intros (H & _). vm_compute in H. discriminate H.
Qed.

(** C3.  A step parameter that is not a number is not clamped:
    [parseInt] gives [NaN], which passes through [Math.max] and
    [Math.min]; the closure starts at [NaN], no slide and no dot is
    active, and whatever happens next the closure stays at [NaN]. *)
Theorem malformed_step_shows_no_slide (d : DOM) (es : list event) :
  let p := App.init (Some "suitcase") (Some "abc") (load d) in
  closures p = [mkClosure (Z.of_nat (length (suitcaseSteps d))) JS.NaN false] ∧
  activeSteps p = [] ∧
  activeDots p = [] ∧
  (currentStep <$> closures (run p es) !! 0%nat) = Some JS.NaN.
Proof.
  intros p.
  assert (p = Suitcase.showStep 0 JS.NaN false
                (set_closures [mkClosure (Z.of_nat (length (suitcaseSteps d))) JS.NaN false]
                              (App.showScreen "suitcase" (load d)))) as Hp
    by reflexivity.
  assert (closures p = [mkClosure (Z.of_nat (length (suitcaseSteps d))) JS.NaN false]) as Hc
    by (rewrite Hp, showStep_closures; reflexivity).
  split; [done|]. split; [|split].
  - rewrite Hp. erewrite activeSteps_showStep; [|reflexivity|reflexivity].
    apply filter_seq_NaN.
  - rewrite Hp. erewrite activeDots_showStep; [|reflexivity|reflexivity].
    apply filter_seq_NaN.
  - apply (run_ind (λ q, (currentStep <$> closures q !! 0%nat) = Some JS.NaN));
      [by rewrite Hc|].
    intros q e _ Hq.
    destruct (closures q !! 0%nat) as [c|] eqn:Hk; [|done].
    destruct (handle_closure q e 0%nat c Hk) as (c' & -> & _ & Hadv).
    simpl in *. injection Hq as Hq. rewrite Hq in Hadv.
    by destruct Hadv as [->|[_ ->]].
Qed.

Lemma showStep_blocked k index p c :
  closures p !! k = Some c → transitioning c = true →
  Suitcase.showStep k index true p = p.
Proof. intros Hk Ht. unfold Suitcase.showStep. by rewrite Hk, Ht. Qed.

(** No tap and no timer brings a slide back once every closure is at
    [NaN]. *)
Lemma nan_shows_no_slide_ever (p : Page) (es : list event) :
  Forall (λ c, currentStep c = JS.NaN) (closures p) →
  activeSteps p = [] →
  ClickNextSteps ∉ es →
  activeSteps (run p es) = [].
Proof.
  intros Hall Hact Hes.
  enough (Forall (λ c, currentStep c = JS.NaN) (closures (run p es)) ∧
          activeSteps (run p es) = []) as H by apply H.
  apply run_ind; [done|].
  intros q e He (Hq & Ha).
  assert (∀ k q, Forall (λ c, currentStep c = JS.NaN) (closures q) ∧ activeSteps q = [] →
            Forall (λ c, currentStep c = JS.NaN) (closures (Suitcase.onClick k false q)) ∧
            activeSteps (Suitcase.onClick k false q) = []) as Hclick.
  { clear. intros k q (Hq & Ha). split.
    - rewrite onClick_closures. apply Forall_alter; [done|].
      intros c _ Hc. unfold clicked. rewrite Hc. done.
    - unfold Suitcase.onClick. destruct (closures q !! k) as [c|] eqn:Hk; [|done].
      rewrite (Forall_lookup_1 _ _ _ _ Hq Hk). simpl.
      destruct (transitioning c) eqn:Ht.
      + rewrite (showStep_blocked k _ _ (mkClosure (totalSteps c) JS.NaN true));
          [done| |done].
        simpl. apply list_lookup_insert_eq. by eapply lookup_lt_Some.
      + erewrite activeSteps_showStep; [apply filter_seq_NaN| |].
        * simpl. apply list_lookup_insert_eq. by eapply lookup_lt_Some.
        * simpl. done. }
  destruct e as [| |b|i|]; simpl.
  - by destruct Hes.
  - done.
  - destruct b.
    + assert (Suitcase.click true q = q) as ->; [|done].
      apply (click_ind (λ q', q' = q)); [done|].
      intros k q' ->. unfold Suitcase.onClick. by case_match.
    + apply click_ind; [done|]. intros k q' Hq'. by apply Hclick.
  - destruct (timers q !! i) as [[k| |]|]; simpl; try done.
    split.
    + rewrite endTransition_closures. simpl. apply Forall_alter; [done|]. by intros.
    + unfold Suitcase.endTransition. simpl. by case_match.
  - by case_match.
Qed.








(** C1.  Two taps within one transition: the second tap is not ignored.
    The step index goes from 0 to 2 while the only transition shows slide
    1; the tap after the transition jumps to slide 3, so that slide 2 (the
    map step) is never shown and the map is never set up. *)
Theorem second_tap_during_transition_advances_index :
  let p0 := samplePage None in
  let p1 := handle p0 (ClickStory false) in
  let p2 := handle p1 (ClickStory false) in
  let p3 := run p2 [TimerFires 0; ClickStory false] in
  (closures p0 = [mkClosure 4 (JS.Num 0) false] ∧ activeSteps p0 = [0%nat]) ∧
  (closures p1 = [mkClosure 4 (JS.Num 1) true] ∧ activeSteps p1 = [1%nat] ∧
   timers p1 = [TransitionEnd 0]) ∧
  (closures p2 = [mkClosure 4 (JS.Num 2) true] ∧ activeSteps p2 = [1%nat] ∧
   timers p2 = [TransitionEnd 0]) ∧
  (closures p3 = [mkClosure 4 (JS.Num 3) true] ∧ activeSteps p3 = [3%nat] ∧
   mapInitialised p3 = false ∧
   log p3 = [ShowStep (JS.Num 0) false; ShowStep (JS.Num 1) true;
             ShowStep (JS.Num 3) true]).
Proof. by vm_compute. Qed.

(** ** The progress sequencer: properties *)

Module ProgressFacts.

Import Progress.
Local Open Scope Q_scope.

Section Easing.

Lemma eased_proper x y : x == y → eased x == eased y.
Proof.
  intros Hxy. unfold eased.
  destruct (Qlt_le_dec x (1 # 2)) as [Hx|Hx], (Qlt_le_dec y (1 # 2)) as [Hy|Hy].
  - by rewrite Hxy.
  - rewrite Hxy in Hx. exfalso. by apply (Qlt_not_le _ _ Hx).
  - rewrite Hxy in Hx. exfalso. by apply (Qlt_not_le _ _ Hy).
  - simpl. by rewrite Hxy.
Qed.

Lemma eased_1 : eased 1 == 1.
Proof. reflexivity. Qed.

End Easing.

Section Script.

Lemma elem_of_concat {A} (x : A) (ls : list (list A)) :
  x ∈ concat ls → ∃ l, x ∈ l ∧ l ∈ ls.
Proof.
  induction ls as [|l ls IH]; simpl; [by intros ?%elem_of_nil|].
  intros [H|H]%elem_of_app.
  - exists l. split; [done|left].
  - destruct (IH H) as (l' & ? & ?). exists l'. split; [done|by right].
Qed.

Lemma bind_script {A B} (m : Async A) (f : A → Async B) :
  (m ≫= f).2 = m.2 ++ (f m.1).2.
Proof. unfold mbind, Async_bind. by destruct (f m.1). Qed.

Lemma forSteps_script i steps :
  (forSteps i steps).2 = concat (imap (λ j step, (runStep (i + j) step).2) steps).
Proof.
  revert i. induction steps as [|step steps IH]; intros i; [done|].
  simpl forSteps. rewrite bind_script, IH. simpl. rewrite Nat.add_0_r.
  do 2 f_equal. apply imap_ext. intros j x _. simpl.
  by rewrite Nat.add_succ_r.
Qed.

Lemma runStep_failure i step p :
  failAt step = Some p → ¬ p == 0 →
  (runStep i step).2 = failureScript i (duration step) p.
Proof.
  intros Hp Hnz. unfold runStep, failPoint. rewrite Hp.
  destruct (Qeq_bool p 0) eqn:Hz; [by apply Qeq_bool_iff in Hz|].
  reflexivity.
Qed.

Lemma runStep_stepOf i step o j :
  o ∈ (runStep i step).2 → stepOf o = Some j → j = i.
Proof.
  unfold runStep. destruct (failPoint step) as [p|]; simpl;
    intros Hin Ho;
    repeat (apply elem_of_cons in Hin as [->|Hin]; [simpl in Ho; congruence|]);
    by apply elem_of_nil in Hin.
Qed.

End Script.

End ProgressFacts.

Import Progress ProgressFacts.

(** C6. [runProgress] works through its steps strictly one after the other:
    the script of step [n] is one contiguous block of the whole script,
    everything before it belongs to earlier steps and everything after it
    to later ones.  For a step with a (non-zero) failure point [p] the
    block is: fill to [p]% over [duration * p / 100], pause, fill to
    [p + 1]% over 400 ms, pause, fill back to [p - 2]% over 200 ms, the
    status FAILED with the error style, and a last pause of 1200 ms. *)
Theorem runProgress_strictly_sequential
    (steps : list Step) (n : nat) (step : Step) :
  steps !! n = Some step →
  (∃ pre post,
      (runProgressOf steps).2 = pre ++ (runStep n step).2 ++ post ∧
      (∀ o i, o ∈ pre → stepOf o = Some i → (i < n)%nat) ∧
      (∀ o i, o ∈ post → stepOf o = Some i → (n < i)%nat)) ∧
  (∀ p, failAt step = Some p → ¬ (p == 0)%Q →
        (runStep n step).2 = failureScript n (duration step) p).
Proof.
  intros Hn. split; [|intros p; apply runStep_failure].
  set (blocks := imap (λ j s, (runStep j s).2) steps).
  assert (blocks !! n = Some (runStep n step).2) as Hb
    by (unfold blocks; by rewrite list_lookup_imap, Hn).
  exists (ClearList :: concat (take n blocks)),
         (concat (drop (S n) blocks) ++ [Sleep 600]).
  split; [|split].
  - unfold runProgressOf. rewrite !bind_script, forSteps_script. simpl.
    fold blocks. f_equal. rewrite !app_assoc. f_equal.
    rewrite <- (take_drop_middle blocks n _ Hb) at 1.
    by rewrite concat_app, concat_cons, app_assoc.
  - intros o i Ho Hi. apply elem_of_cons in Ho as [->|Ho]; [done|].
    apply elem_of_concat in Ho as (b & Ho & Hbin).
    apply list_elem_of_lookup in Hbin as (j & Hj).
    apply lookup_take_Some in Hj as (Hj & Hlt).
    unfold blocks in Hj. rewrite list_lookup_imap in Hj.
    destruct (steps !! j) as [s|]; [|done]. injection Hj as <-.
    by rewrite (runStep_stepOf j s o i Ho Hi).
  - intros o i Ho Hi. apply elem_of_app in Ho as [Ho|Ho].
    + apply elem_of_concat in Ho as (b & Ho & Hbin).
      apply list_elem_of_lookup in Hbin as (j & Hj).
      rewrite lookup_drop in Hj.
      unfold blocks in Hj. rewrite list_lookup_imap in Hj.
      destruct (steps !! (S n + j)%nat) as [s|]; [|done]. injection Hj as <-.
      rewrite (runStep_stepOf _ s o i Ho Hi). lia.
    + apply list_elem_of_singleton in Ho as ->. done.
Qed.

Lemma runProgress_strictly_sequential_witness :
  (runStep 4 (mkStep "Finalising" "gold" 3000%Q (Some 87%Q))).2
  = failureScript 4 3000%Q 87%Q.
Proof.
  apply (runProgress_strictly_sequential STEPS 4
           (mkStep "Finalising" "gold" 3000%Q (Some 87%Q)) eq_refl).
  - reflexivity.
  - intros H. discriminate H.
Defined.

(** ** [animateFill] in binary64: properties *)

Module Binary64Facts.

Import Binary64.
Local Open Scope float_scope.

Section Frames.

Variable pow : float → float → float.
Hypothesis pow_zero : pow 0 2 = 0.
Variables (start startWidth delta duration : float).

Let t (now : float) : float := (now - start) / duration.
Let shown (now : float) : float := startWidth + delta * eased pow (t now).










End Frames.



(** Half way through a fill from 0% to 100% over 2000 ms the bar shows
    50%. *)
Example frame_half_way : (frame square 0 0 100 2000 1000).1 = 50.
Proof. reflexivity. Qed.

End Binary64Facts.




(** * Further properties *)

(** ** The story sequencer *)

Section StoryMore.

Implicit Types (p q : Page) (e : event) (es : list event).

Lemma contains_exited_stepClasses index i cl :
  JS.contains "exited" (Suitcase.stepClasses index i cl) =
    JS.lt (JS.Num (Z.of_nat i)) index.
Proof.
  unfold Suitcase.stepClasses.
  destruct (JS.strictEq _ _) eqn:Heq.
  - rewrite contains_add, contains_remove. simpl.
    destruct index as [|z]; [done|]. simpl in *.
    apply Z.eqb_eq in Heq. symmetry. apply Z.ltb_ge. lia.
  - destruct (JS.lt _ _); rewrite ?contains_add, ?contains_remove; done.
Qed.

Lemma showStep_timers k index a p :
  timers (Suitcase.showStep k index a p) =
    timers p ++
    match closures p !! k with
    | Some c => if a && negb (transitioning c) then [TransitionEnd k] else []
    | None => []
    end.
Proof.
  unfold Suitcase.showStep, Suitcase.initMap.
  destruct (closures p !! k) as [c|]; [|by rewrite app_nil_r].
  destruct a, (transitioning c); simpl; rewrite ?app_nil_r; try done;
    repeat case_match; done.
Qed.

Lemma showStep_unguarded_false k index p :
  closures (Suitcase.showStep k index false p) = closures p.
Proof.
  rewrite showStep_closures. apply list_eq. intros j.
  destruct (decide (j = k)) as [->|Hne].
  - rewrite list_lookup_alter_eq. by destruct (closures p !! k).
  - by rewrite list_lookup_alter_ne.
Qed.

Lemma initSuitcase_timers s p :
  timers (Suitcase.initSuitcase s p) = timers p.
Proof.
  unfold Suitcase.initSuitcase. rewrite showStep_timers. simpl.
  rewrite lookup_app_r, Nat.sub_diag by done. simpl. by rewrite app_nil_r.
Qed.

Lemma clamp_range total z : 0 < total → 0 ≤ clamp total z ≤ total - 1.
Proof. unfold clamp. lia. Qed.

End StoryMore.

(** X1. [initSuitcase(startAt)] with a number shows the slide
    [clamp startAt] and no other: that slide alone is [active], the
    slides before it are [exited], those after it are neither; its dot is
    the active one; the hint is hidden only on the last slide; and nothing
    is animated (no timer is started, the closure is not in transition). *)
Theorem initSuitcase_shows_the_clamped_slide (p0 : Page) (z : Z) :
  (0 < length (steps p0))%nat →
  let total := Z.of_nat (length (steps p0)) in
  let m := clamp total z in
  let p := Suitcase.initSuitcase (JS.Num z) p0 in
  0 ≤ m ≤ total - 1 ∧
  closures p = closures p0 ++ [mkClosure total (JS.Num m) false] ∧
  timers p = timers p0 ∧
  (∀ i cl, steps p !! i = Some cl →
     JS.contains "active" cl = bool_decide (Z.of_nat i = m) ∧
     JS.contains "exited" cl = bool_decide (Z.of_nat i < m)) ∧
  (∀ i cl, dots p !! i = Some cl →
     JS.contains "active" cl = bool_decide (Z.of_nat i = m)) ∧
  tapHint p = (if bool_decide (m = total - 1) then "none" else "").
Proof.
  intros Hlen total m p.
  assert (0 ≤ m ≤ total - 1) as Hm by (apply clamp_range; lia).
  split; [done|]. split; [apply initSuitcase_closures|].
  unfold p, Suitcase.initSuitcase. fold total.
  change (JS.min (JS.max (JS.Num z) (JS.Num 0)) (JS.Num (total - 1))) with (JS.Num m).
  set (p1 := set_closures _ p0).
  assert (closures p1 !! length (closures p0) = Some (mkClosure total (JS.Num m) false))
    as Hk by (simpl; by rewrite lookup_app_r, Nat.sub_diag).
  split.
  { rewrite showStep_timers, Hk. simpl. by rewrite app_nil_r. }
  destruct (showStep_steps _ (JS.Num m) false p1 _ Hk eq_refl) as (-> & -> & ->).
  simpl steps. simpl dots. repeat split.
  - rewrite list_lookup_imap in H.
    destruct (steps p0 !! i); [|done]. injection H as <-.
    rewrite contains_active_stepClasses. simpl.
    destruct (Z.eqb_spec (Z.of_nat i) m); by case_bool_decide.
  - rewrite list_lookup_imap in H.
    destruct (steps p0 !! i); [|done]. injection H as <-.
    rewrite contains_exited_stepClasses. simpl.
    destruct (Z.ltb_spec (Z.of_nat i) m); case_bool_decide; try done; lia.
  - intros i cl H. rewrite list_lookup_imap in H.
    destruct (dots p0 !! i); [|done]. injection H as <-.
    rewrite contains_active_dotClasses. simpl.
    destruct (Z.eqb_spec (Z.of_nat i) m); by case_bool_decide.
  - simpl. destruct (Z.leb_spec (total - 1) m); case_bool_decide; try done; lia.
Qed.

Lemma initSuitcase_shows_the_clamped_slide_witness :
  closures (Suitcase.initSuitcase (JS.Num 7) (load sampleDOM))
  = [mkClosure 4 (JS.Num 3) false].
Proof.
  refine (proj1 (proj2 (initSuitcase_shows_the_clamped_slide (load sampleDOM) 7 _))).
  simpl. lia.
Defined.

Section StoryInvariants.

Implicit Types (p q : Page) (e : event) (es : list event).

Lemma showStep_closuresOk k index a p :
  closuresOk p → closuresOk (Suitcase.showStep k index a p).
Proof.
  unfold closuresOk. intros H.
  rewrite showStep_closures, showStep_length_steps.
  apply Forall_alter; [done|]. intros c _ Hc. by destruct a.
Qed.

Lemma showStep_oneSlideShown k z a p c :
  closures p !! k = Some c →
  totalSteps c = Z.of_nat (length (steps p)) →
  0 ≤ z ≤ totalSteps c - 1 →
  oneSlideShown p → oneSlideShown (Suitcase.showStep k (JS.Num z) a p).
Proof.
  intros Hk Ht Hz Hp.
  destruct (a && transitioning c) eqn:Hg.
  { unfold Suitcase.showStep. by rewrite Hk, Hg. }
  exists (Z.to_nat z). rewrite showStep_length_steps.
  rewrite (activeSteps_showStep k _ a p c Hk Hg), filter_seq_index.
  destruct (showStep_steps k (JS.Num z) a p c Hk Hg) as (_ & _ & ->).
  split; [lia|]. split; [case_decide; [done|lia]|].
  simpl. destruct (Z.leb_spec (totalSteps c - 1) z); case_bool_decide; try done; lia.
Qed.

Lemma onClick_storyInv k b p : storyInv p → storyInv (Suitcase.onClick k b p).
Proof.
  intros (Hc & Hs). unfold Suitcase.onClick.
  destruct (closures p !! k) as [c|] eqn:Hk; [|done].
  destruct b; [done|].
  destruct (JS.ge _ _) eqn:Hge; [done|].
  destruct (Forall_lookup_1 _ _ _ _ Hc Hk) as (Ht & z & Hz & Hr).
  rewrite Hz in *. simpl in Hge. apply Z.leb_gt in Hge. simpl JS.incr.
  set (c1 := mkClosure _ _ _). set (p1 := set_closures _ p).
  assert (closures p1 !! k = Some c1) as Hk1.
  { simpl. apply list_lookup_insert_eq. by eapply lookup_lt_Some. }
  assert (closuresOk p1) as Hc1.
  { unfold closuresOk. simpl. apply Forall_insert; [done|].
    split; [done|]. exists (z + 1). split; [done|]. simpl. lia. }
  split.
  - by apply showStep_closuresOk.
  - apply (showStep_oneSlideShown k (z + 1) true p1 c1); try done. simpl. lia.
Qed.

Lemma initSuitcase_storyInv z p :
  (0 < length (steps p))%nat → closuresOk p →
  storyInv (Suitcase.initSuitcase (JS.Num z) p).
Proof.
  intros Hlen Hc.
  pose proof (clamp_range (Z.of_nat (length (steps p))) z ltac:(lia)) as Hm.
  unfold Suitcase.initSuitcase.
  change (JS.min (JS.max (JS.Num z) (JS.Num 0)) (JS.Num (Z.of_nat (length (steps p)) - 1)))
    with (JS.Num (clamp (Z.of_nat (length (steps p))) z)).
  set (c := mkClosure _ _ _). set (p1 := set_closures _ p).
  assert (closures p1 !! length (closures p) = Some c) as Hk
    by (simpl; by rewrite lookup_app_r, Nat.sub_diag).
  assert (closuresOk p1) as Hc1.
  { unfold closuresOk. simpl. apply Forall_app. split; [done|].
    apply Forall_singleton. split; [done|]. eexists. split; [done|]. simpl. lia. }
  split; [by apply showStep_closuresOk|].
  destruct (showStep_steps _ (JS.Num (clamp (Z.of_nat (length (steps p))) z)) false p1 c Hk eq_refl)
    as (_ & _ & Hhint).
  exists (Z.to_nat (clamp (Z.of_nat (length (steps p))) z)).
  rewrite showStep_length_steps.
  rewrite (activeSteps_showStep _ _ false p1 c Hk eq_refl), filter_seq_index, Hhint.
  simpl steps. split; [lia|]. split; [case_decide; [done|lia]|].
  simpl. destruct (Z.leb_spec (Z.of_nat (length (steps p)) - 1)
                              (clamp (Z.of_nat (length (steps p))) z));
    case_bool_decide; try done; lia.
Qed.

Lemma storyInv_length p : storyInv p → (0 < length (steps p))%nat.
Proof. intros (_ & i & Hi & _). lia. Qed.

Lemma handle_storyInv p e : storyInv p → storyInv (handle p e).
Proof.
  intros Hp. pose proof (storyInv_length p Hp) as Hlen.
  destruct e as [| |b|i|]; simpl.
  - apply initSuitcase_storyInv; [done|apply Hp].
  - exact Hp.
  - apply click_ind; [done|]. intros; by apply onClick_storyInv.
  - destruct (timers p !! i) as [[k| |]|]; simpl; try exact Hp.
    destruct Hp as (Hc & Hs). split.
    + unfold closuresOk. rewrite endTransition_closures.
      replace (steps (Suitcase.endTransition k (set_timers (delete i (timers p)) p)))
        with (steps p) by (unfold Suitcase.endTransition; by case_match).
      simpl. apply Forall_alter; [done|]. by intros c _ Hcc.
    + unfold Suitcase.endTransition. by case_match.
  - by case_match.
Qed.

(** *** Dots *)

Lemma showStep_dotsInv k index a p : dotsInv p → dotsInv (Suitcase.showStep k index a p).
Proof.
  intros (Hlen & Hact).
  destruct (closures p !! k) as [c|] eqn:Hk;
    [|unfold Suitcase.showStep; by rewrite Hk].
  destruct (a && transitioning c) eqn:Hg;
    [unfold Suitcase.showStep; by rewrite Hk, Hg|].
  split.
  - destruct (showStep_steps k index a p c Hk Hg) as (-> & -> & _).
    by rewrite !length_imap.
  - rewrite (activeSteps_showStep k index a p c Hk Hg),
      (activeDots_showStep k index a p c Hk Hg). by rewrite Hlen.
Qed.

Lemma handle_dotsInv p e : dotsInv p → dotsInv (handle p e).
Proof.
  intros Hp. destruct e as [| |b|i|]; simpl.
  - unfold App.onNextSteps, Suitcase.initSuitcase. by apply showStep_dotsInv.
  - exact Hp.
  - apply click_ind; [done|]. intros k q Hq. unfold Suitcase.onClick.
    repeat case_match; try done. by apply showStep_dotsInv.
  - destruct (timers p !! i) as [[k| |]|]; simpl; try exact Hp.
    unfold Suitcase.endTransition. by case_match.
  - by case_match.
Qed.

Lemma init_dotsInv skipTo suitcaseStep p :
  dotsInv p → dotsInv (App.init skipTo suitcaseStep p).
Proof.
  intros Hp. unfold App.init.
  destruct skipTo as [name|]; [|exact Hp].
  destruct (_ && _); [|exact Hp].
  unfold App.jumpTo, Suitcase.initSuitcase.
  repeat case_bool_decide; try exact Hp. by apply showStep_dotsInv.
Qed.

(** *** Timers *)

Lemma filter_delete_length {A} (P : A → Prop) `{∀ x, Decision (P x)}
    (l : list A) (i : nat) (x : A) :
  l !! i = Some x →
  length (filter P l) =
    (length (filter P (delete i l)) + if decide (P x) then 1 else 0)%nat.
Proof.
  revert i. induction l as [|y l IH]; intros [|i] Hi; try done.
  - injection Hi as ->. simpl. rewrite filter_cons.
    case_decide; simpl; lia.
  - simpl in Hi. simpl delete. rewrite !filter_cons.
    specialize (IH i Hi). destruct (decide (P y)); simpl; lia.
Qed.

Lemma pending_app k p t :
  pendingTransitions k (setTimeout t p) =
    (pendingTransitions k p + if decide (t = TransitionEnd k) then 1 else 0)%nat.
Proof.
  unfold pendingTransitions, setTimeout. simpl.
  rewrite filter_app, length_app, filter_cons, filter_nil.
  by case_decide.
Qed.

Lemma showStep_timersInv k index a p :
  timersInv p → timersInv (Suitcase.showStep k index a p).
Proof.
  intros Hp j. specialize (Hp j). unfold pendingTransitions in *.
  rewrite showStep_timers, showStep_closures, filter_app, length_app, Hp.
  destruct (decide (j = k)) as [->|Hne].
  - rewrite list_lookup_alter_eq.
    destruct (closures p !! k) as [c|]; simpl; [|done].
    destruct a, (transitioning c); simpl; try done.
    rewrite filter_cons, filter_nil. by case_decide.
  - rewrite list_lookup_alter_ne by done.
    destruct (closures p !! k) as [c|]; simpl; [|lia].
    destruct (a && negb (transitioning c)); simpl; [|lia].
    rewrite filter_cons, filter_nil. case_decide; [congruence|]. simpl. lia.
Qed.

Lemma onClick_timersInv k b p : timersInv p → timersInv (Suitcase.onClick k b p).
Proof.
  intros Hp. unfold Suitcase.onClick.
  destruct (closures p !! k) as [c|] eqn:Hk; [|done].
  destruct b; [done|]. destruct (JS.ge _ _); [done|].
  apply showStep_timersInv. intros j. specialize (Hp j).
  unfold pendingTransitions in *. simpl. rewrite Hp.
  destruct (decide (j = k)) as [->|Hne].
  - rewrite list_lookup_insert_eq by (by eapply lookup_lt_Some). by rewrite Hk.
  - by rewrite list_lookup_insert_ne.
Qed.

Lemma initSuitcase_timersInv s p : timersInv p → timersInv (Suitcase.initSuitcase s p).
Proof.
  intros Hp. unfold Suitcase.initSuitcase. apply showStep_timersInv.
  intros j. specialize (Hp j). unfold pendingTransitions in *. simpl. rewrite Hp.
  destruct (closures p !! j) as [c|] eqn:Hj.
  - by rewrite (lookup_app_l_Some _ _ _ _ Hj).
  - apply lookup_ge_None in Hj.
    destruct (decide (j = length (closures p))) as [->|Hne].
    + by rewrite lookup_app_r, Nat.sub_diag.
    + rewrite lookup_ge_None_2; [done|]. rewrite length_app. simpl. lia.
Qed.

Lemma setTimeout_other_timersInv t p :
  (∀ k, t ≠ TransitionEnd k) → timersInv p → timersInv (setTimeout t p).
Proof.
  intros Ht Hp j. rewrite pending_app. case_decide; [by destruct (Ht j)|].
  rewrite Nat.add_0_r. apply Hp.
Qed.

Lemma handle_timersInv p e : timersInv p → timersInv (handle p e).
Proof.
  intros Hp. destruct e as [| |b|i|]; simpl.
  - by apply initSuitcase_timersInv.
  - exact Hp.
  - apply click_ind; [done|]. intros; by apply onClick_timersInv.
  - destruct (timers p !! i) as [t|] eqn:Hi; [|done].
    assert (∀ j, pendingTransitions j p =
                 (pendingTransitions j (set_timers (delete i (timers p)) p)
                  + if decide (t = TransitionEnd j) then 1 else 0)%nat) as Hdel.
    { intros j. unfold pendingTransitions. simpl.
      exact (@filter_delete_length timer (λ t0, t0 = TransitionEnd j) _
               (timers p) i t Hi). }
    destruct t as [k| |]; simpl.
    + intros j. specialize (Hp j). specialize (Hdel j). rewrite Hp in Hdel.
      unfold Suitcase.endTransition. simpl.
      destruct (closures p !! k) as [c|] eqn:Hk.
      * unfold pendingTransitions in *. simpl in *.
        destruct (decide (j = k)) as [->|Hne].
        -- rewrite list_lookup_insert_eq by (by eapply lookup_lt_Some). simpl.
           rewrite Hk in Hdel. case_decide; [|done].
           destruct (transitioning c); lia.
        -- rewrite list_lookup_insert_ne by done.
           case_decide; [congruence|]. lia.
      * unfold pendingTransitions in *. simpl in *.
        destruct (decide (j = k)) as [->|Hne].
        -- rewrite Hk in *. case_decide; [lia|done].
        -- case_decide; [congruence|]. lia.
    + apply setTimeout_other_timersInv; [done|].
      intros j. specialize (Hp j). specialize (Hdel j). rewrite Hp in Hdel.
      case_decide; [done|].
      change (closures (App.onErrorScreen _ _) !! j) with (closures p !! j).
      change (pendingTransitions j (App.onErrorScreen _ _))
        with (pendingTransitions j (set_timers (delete i (timers p)) p)).
      lia.
    + intros j. specialize (Hp j). specialize (Hdel j). rewrite Hp in Hdel.
      case_decide; [done|].
      change (closures (App.shakeEnd _) !! j) with (closures p !! j).
      change (pendingTransitions j (App.shakeEnd _))
        with (pendingTransitions j (set_timers (delete i (timers p)) p)).
      lia.
  - case_match; [|done]. by apply setTimeout_other_timersInv.
Qed.

Lemma init_timersInv skipTo suitcaseStep d :
  timersInv (App.init skipTo suitcaseStep (load d)).
Proof.
  assert (timersInv (load d)) as Hl by (intros k; by destruct k).
  unfold App.init.
  destruct skipTo as [name|]; [|exact Hl].
  destruct (_ && _); [|exact Hl].
  unfold App.jumpTo.
  repeat case_bool_decide; try exact Hl. by apply initSuitcase_timersInv.
Qed.

End StoryInvariants.

(** X2. Taps that each wait for the end of the transition walk through the
    slides one by one: after [n] such taps from a valid start [s] the
    closure is on slide [min (s + n) (totalSteps - 1)], that slide is the
    one shown, no timer is left, and the map has been set up as soon as
    the walk has reached the map step. *)
Theorem spaced_taps_advance_one_slide_each (p0 : Page) (s : Z) (n : nat) :
  closures p0 = [] → timers p0 = [] →
  0 ≤ s ≤ Z.of_nat (length (steps p0)) - 1 →
  let total := Z.of_nat (length (steps p0)) in
  let m := Z.min (s + Z.of_nat n) (total - 1) in
  let p := run (Suitcase.initSuitcase (JS.Num s) p0) (concat (replicate n spacedTap)) in
  closures p = [mkClosure total (JS.Num m) false] ∧
  timers p = [] ∧
  activeSteps p = [Z.to_nat m] ∧
  (s ≤ 2 ≤ m → mapInitialised p = true).
Proof.
  intros Hc0 Ht0 Hs total m p.
  enough (closures p = [mkClosure total (JS.Num m) false] ∧ timers p = [] ∧
          activeSteps p = [Z.to_nat m] ∧ (s ≤ 2 ≤ m → mapInitialised p = true) ∧
          length (steps p) = length (steps p0)) as H by tauto.
  unfold p, m. clear p m. induction n as [|n IH].
  - simpl concat. simpl run.
    pose proof (initSuitcase_closures (JS.Num s) p0) as Hc.
    pose proof (initSuitcase_timers (JS.Num s) p0) as Ht.
    assert (clamp total s = s) as Hcl by (unfold clamp; lia).
    fold total in Hc.
    change (JS.min (JS.max (JS.Num s) (JS.Num 0)) (JS.Num (total - 1)))
      with (JS.Num (clamp total s)) in Hc.
    rewrite Hcl, Hc0 in Hc. simpl in Hc.
    replace (Z.min (s + Z.of_nat 0) (total - 1)) with s by lia.
    split; [done|]. split; [by rewrite Ht|].
    rewrite initSuitcase_length_steps.
    unfold Suitcase.initSuitcase. fold total.
    change (JS.min (JS.max (JS.Num s) (JS.Num 0)) (JS.Num (total - 1)))
      with (JS.Num (clamp total s)).
    rewrite Hcl, Hc0. simpl length. simpl app.
    erewrite activeSteps_showStep; [|reflexivity|reflexivity].
    rewrite showStep_mapInitialised. simpl steps.
    rewrite filter_seq_index. split; [case_decide; [done|lia]|]. split; [|done].
    intros H2. assert (s = 2) as -> by lia.
    unfold shown. simpl. destruct (mapInitialised p0); done.
  - rewrite replicate_S_end, concat_app. simpl concat.
    unfold run in *. rewrite foldl_app.
    set (q := foldl handle _ (concat (replicate n spacedTap))) in *.
    destruct IH as (Hc & Ht & Ha & Hm & Hl).
    set (z := Z.min (s + Z.of_nat n) (total - 1)) in *.
    replace (Z.min (s + Z.of_nat (S n)) (total - 1)) with (Z.min (z + 1) (total - 1))
      by lia.
    assert (Suitcase.click false q = Suitcase.onClick 0 false q) as Hclick
      by (unfold Suitcase.click; by rewrite Hc).
    cbn [foldl handle]. rewrite Hclick.
    destruct (Z.leb_spec (total - 1) z) as [Hlast|Hmore].
    + assert (Suitcase.onClick 0 false q = q) as ->.
      { eapply onClick_last; [by rewrite Hc|]. simpl. f_equal. lia. }
      rewrite Ht. simpl.
      replace (Z.min (z + 1) (total - 1)) with z by lia.
      repeat split; try done.
    + replace (Z.min (z + 1) (total - 1)) with (z + 1) by lia.
      set (q1 := set_closures [mkClosure total (JS.Num (z + 1)) false] q).
      assert (Suitcase.onClick 0 false q = Suitcase.showStep 0 (JS.Num (z + 1)) true q1)
        as ->.
      { unfold Suitcase.onClick. rewrite Hc. simpl.
        destruct (Z.leb_spec (total - 1) z); [lia|done]. }
      set (q' := Suitcase.showStep 0 (JS.Num (z + 1)) true q1).
      assert (closures q1 !! 0%nat = Some (mkClosure total (JS.Num (z + 1)) false))
        as Hk by done.
      assert (timers q' = [TransitionEnd 0]) as Ht'.
      { unfold q'. rewrite showStep_timers, Hk. simpl. by rewrite Ht. }
      assert (closures q' = [mkClosure total (JS.Num (z + 1)) true]) as Hc'.
      { unfold q'. by rewrite showStep_closures. }
      assert (activeSteps q' = [Z.to_nat (z + 1)]) as Ha'.
      { unfold q'. rewrite (activeSteps_showStep 0 _ true q1 _ Hk eq_refl).
        simpl steps. rewrite filter_seq_index, Hl. case_decide; [done|lia]. }
      assert (length (steps q') = length (steps p0)) as Hl'
        by (unfold q'; by rewrite showStep_length_steps).
      assert (s ≤ 2 ≤ z + 1 → mapInitialised q' = true) as Hm'.
      { intros H2. unfold q'. rewrite showStep_mapInitialised. simpl mapInitialised.
        destruct (decide (z + 1 = 2)) as [Heq|Hne].
        - unfold shown. rewrite Hk, Heq. simpl. by destruct (mapInitialised q).
        - rewrite Hm by lia. done. }
      clearbody q'. rewrite Ht'. simpl lookup. cbv iota. simpl fire. simpl delete.
      set (q2 := set_timers [] q').
      assert (closures q2 !! 0%nat = Some (mkClosure total (JS.Num (z + 1)) true))
        as Hk2 by (simpl; by rewrite Hc').
      split.
      { rewrite endTransition_closures. simpl closures. by rewrite Hc'. }
      unfold Suitcase.endTransition. rewrite Hk2.
      repeat split; try done.
Qed.

Lemma spaced_taps_advance_one_slide_each_witness :
  activeSteps (run (Suitcase.initSuitcase (JS.Num 0) (load sampleDOM))
                   (concat (replicate 2 spacedTap))) = [2%nat] ∧
  mapInitialised (run (Suitcase.initSuitcase (JS.Num 0) (load sampleDOM))
                      (concat (replicate 2 spacedTap))) = true.
Proof.
  destruct (spaced_taps_advance_one_slide_each (load sampleDOM) 0 2)
    as (_ & _ & Ha & Hm); [reflexivity|reflexivity|simpl; lia|].
  split; [exact Ha|]. apply Hm. simpl. lia.
Defined.

(** X3. The dots mirror the slides: when the document has as many dots as
    slides and they agree at load time, the active dots are the active
    slides after every event of every run. *)
Theorem dots_mirror_slides
    (skipTo suitcaseStep : option string) (d : DOM) (es : list event) :
  length (stepDots d) = length (suitcaseSteps d) →
  activeIn (stepDots d) = activeIn (suitcaseSteps d) →
  activeDots (run (App.init skipTo suitcaseStep (load d)) es)
  = activeSteps (run (App.init skipTo suitcaseStep (load d)) es).
Proof.
  intros Hlen Hact.
  enough (dotsInv (run (App.init skipTo suitcaseStep (load d)) es)) as H by apply H.
  apply run_ind.
  - apply init_dotsInv. by split.
  - intros q e _. apply handle_dotsInv.
Qed.

Lemma dots_mirror_slides_witness :
  activeDots (run (samplePage (Some "1")) [ClickStory false; ClickStory false])
  = activeSteps (run (samplePage (Some "1")) [ClickStory false; ClickStory false]).
Proof.
  apply (dots_mirror_slides (Some "suitcase") (Some "1") sampleDOM
           [ClickStory false; ClickStory false]); reflexivity.
Defined.

(** X4. A closure is in transition exactly while its timer is pending: in
    every run, for every closure, the number of pending transition timers
    is one when [transitioning] is set and zero when it is not.  The flag
    is never left set without a timer to clear it, and two transitions of
    one closure never overlap. *)
Theorem transitioning_iff_timer_pending
    (skipTo suitcaseStep : option string) (d : DOM) (es : list event)
    (k : nat) (c : Closure) :
  closures (run (App.init skipTo suitcaseStep (load d)) es) !! k = Some c →
  pendingTransitions k (run (App.init skipTo suitcaseStep (load d)) es)
  = if transitioning c then 1%nat else 0%nat.
Proof.
  intros Hk.
  assert (timersInv (run (App.init skipTo suitcaseStep (load d)) es)) as H.
  { apply run_ind; [apply init_timersInv|]. intros q e _. apply handle_timersInv. }
  specialize (H k). by rewrite Hk in H.
Qed.

Lemma transitioning_iff_timer_pending_witness :
  pendingTransitions 0 (run (samplePage None) [ClickStory false; ClickStory false])
  = 1%nat.
Proof.
  apply (transitioning_iff_timer_pending (Some "suitcase") None sampleDOM
           [ClickStory false; ClickStory false] 0 (mkClosure 4 (JS.Num 2) true)).
  reflexivity.
Defined.

(** X5. A click whose target lies inside [#btn-show-gift] leaves the story
    untouched, however many listeners are registered. *)
Theorem gift_button_click_leaves_story_alone (p : Page) :
  handle p (ClickStory true) = p.
Proof.
  simpl. apply (click_ind (λ q, q = p)); [done|].
  intros k q ->. unfold Suitcase.onClick. by case_match.
Qed.

(** X6. A deep link to the story with a numeric step, or with none, shows
    the clamped slide: negative steps give slide 0, steps beyond the end
    give the last slide, and a missing step gives slide 0.  The story
    screen is the active one and the default flow is not started. *)
Theorem deep_link_step_is_clamped
    (d : DOM) (suitcaseStep : option string) (z : Z) :
  (0 < length (suitcaseSteps d))%nat →
  match suitcaseStep with
  | Some str => JS.parseInt str
  | None => JS.Num 0
  end = JS.Num z →
  let total := Z.of_nat (length (suitcaseSteps d)) in
  let p := App.init (Some "suitcase") suitcaseStep (load d) in
  activeScreens p = ["suitcase"] ∧
  activeSteps p = [Z.to_nat (clamp total z)] ∧
  closures p = [mkClosure total (JS.Num (clamp total z)) false] ∧
  count_effect isRunProgress p = 0%nat.
Proof.
  intros Hlen Hparse total p.
  pose proof (clamp_range total z ltac:(lia)) as Hm.
  assert (p = Suitcase.showStep 0 (JS.Num (clamp total z)) false
                (set_closures [mkClosure total (JS.Num (clamp total z)) false]
                              (App.showScreen "suitcase" (load d)))) as Hp.
  { unfold p. rewrite init_suitcase, Hparse. reflexivity. }
  repeat split.
  - rewrite Hp. unfold activeScreens. rewrite showStep_screens.
    change (activeScreens (App.showScreen "suitcase" (load d)) = ["suitcase"]).
    by rewrite activeScreens_showScreen.
  - rewrite Hp. erewrite activeSteps_showStep; [|reflexivity|reflexivity].
    simpl steps. rewrite filter_seq_index. case_decide; [done|lia].
  - rewrite Hp, showStep_closures. reflexivity.
  - rewrite Hp, showStep_RunProgress. reflexivity.
Qed.

Lemma deep_link_step_is_clamped_witness :
  activeSteps (samplePage (Some "-5")) = [0%nat] ∧
  activeSteps (samplePage (Some "99")) = [3%nat].
Proof.
  split.
  - refine (proj1 (proj2 (deep_link_step_is_clamped sampleDOM (Some "-5") (-5) _ _)));
      [simpl; lia|reflexivity].
  - refine (proj1 (proj2 (deep_link_step_is_clamped sampleDOM (Some "99") 99 _ _)));
      [simpl; lia|reflexivity].
Defined.

(** X7. After a deep link to the story with a numeric step (or none), on a
    document with at least one slide, exactly one slide is shown after
    every event of every run, the tap hint is hidden exactly when that
    slide is the last one, and every closure is on an existing slide. *)
Theorem story_shows_exactly_one_slide
    (d : DOM) (suitcaseStep : option string) (z : Z) (es : list event) :
  (0 < length (suitcaseSteps d))%nat →
  match suitcaseStep with
  | Some str => JS.parseInt str
  | None => JS.Num 0
  end = JS.Num z →
  let p := run (App.init (Some "suitcase") suitcaseStep (load d)) es in
  length (steps p) = length (suitcaseSteps d) ∧
  (∃ i : nat, (i < length (steps p))%nat ∧
              activeSteps p = [i] ∧
              tapHint p = if bool_decide (S i = length (steps p)) then "none" else "") ∧
  Forall (λ c, ∃ z, currentStep c = JS.Num z ∧ 0 ≤ z ≤ Z.of_nat (length (steps p)) - 1)
         (closures p).
Proof.
  intros Hlen Hparse p.
  assert (storyInv p ∧ length (steps p) = length (suitcaseSteps d)) as ((Hc & Hs) & Hl).
  { unfold p. apply run_ind.
    - rewrite init_suitcase, Hparse. split.
      + apply initSuitcase_storyInv; [done|]. by apply Forall_nil.
      + by rewrite initSuitcase_length_steps.
    - intros q e _ (Hq & Hl). split; [by apply handle_storyInv|].
      by rewrite handle_length_steps. }
  split; [done|]. split; [exact Hs|].
  eapply Forall_impl; [exact Hc|]. intros c (Ht & x & Hx & Hr).
  exists x. split; [done|]. lia.
Qed.

Lemma story_shows_exactly_one_slide_witness :
  ∃ i : nat,
    activeSteps (run (samplePage (Some "1")) [ClickStory false; ClickNextSteps]) = [i].
Proof.
  destruct (story_shows_exactly_one_slide sampleDOM (Some "1") 1
              [ClickStory false; ClickNextSteps])
    as (_ & (i & _ & Hi & _) & _); [simpl; lia|reflexivity|].
  exists i. exact Hi.
Defined.

(** ** The flow controller *)

Section FlowMore.

Implicit Types (p q : Page).

Lemma startFlow_lands_on_progress q :
  keys q = screenKeys → log q = [] → closures q = [] →
  activeScreens (App.startFlow q) = ["progress"] ∧
  count_effect isRunProgress (App.startFlow q) = 1%nat ∧
  awaitingProgress (App.startFlow q) = true ∧
  count_effect isInitModelViewer (App.startFlow q) = 0%nat ∧
  length (closures (App.startFlow q)) = 0%nat.
Proof.
  intros Hk Hl Hc. repeat split.
  - change (activeScreens (App.showScreen "progress" q) = ["progress"]).
    by rewrite activeScreens_showScreen, Hk.
  - unfold App.startFlow, count_effect. simpl. by rewrite Hl.
  - unfold App.startFlow, count_effect. simpl. by rewrite Hl.
  - simpl. by rewrite Hc.
Qed.

Lemma landing_other name :
  name ≠ "error" → name ≠ "suitcase" → name ≠ "model" →
  landing (Some name) = "progress".
Proof.
  intros H1 H2 H3. unfold landing. rewrite bool_decide_eq_false_2; [done|].
  rewrite !elem_of_cons, elem_of_nil. tauto.
Qed.

End FlowMore.

(** X8. Whatever the value of the [screen] parameter, [init] leaves exactly
    one screen active: the named one for [error], [suitcase] and [model],
    and the progress screen in every other case (no parameter, an empty
    or unknown value, [progress] itself, or a name that [screens] only
    inherits from [Object.prototype]).  The progress sequence is started
    exactly in that other case, the model viewer exactly for [model], and
    a story closure is created exactly for [suitcase]. *)
Theorem init_lands_on_one_screen (skipTo suitcaseStep : option string) (d : DOM) :
  activeScreens (App.init skipTo suitcaseStep (load d)) = [landing skipTo] ∧
  count_effect isRunProgress (App.init skipTo suitcaseStep (load d))
    = (if bool_decide (landing skipTo = "progress") then 1 else 0)%nat ∧
  awaitingProgress (App.init skipTo suitcaseStep (load d))
    = bool_decide (landing skipTo = "progress") ∧
  count_effect isInitModelViewer (App.init skipTo suitcaseStep (load d))
    = (if bool_decide (landing skipTo = "model") then 1 else 0)%nat ∧
  length (closures (App.init skipTo suitcaseStep (load d)))
    = (if bool_decide (landing skipTo = "suitcase") then 1 else 0)%nat.
Proof.
  destruct skipTo as [name|]; [|by apply startFlow_lands_on_progress].
  destruct (decide (name = "error")) as [->|He].
  { repeat split.
    change (activeScreens (App.showScreen "error" (load d)) = ["error"]).
    by rewrite activeScreens_showScreen. }
  destruct (decide (name = "suitcase")) as [->|Hs].
  { rewrite init_suitcase. repeat split.
    - unfold activeScreens. rewrite initSuitcase_screens.
      change (activeScreens (App.showScreen "suitcase" (load d)) = ["suitcase"]).
      by rewrite activeScreens_showScreen.
    - unfold Suitcase.initSuitcase. by rewrite showStep_RunProgress.
    - by rewrite initSuitcase_awaitingProgress.
    - unfold Suitcase.initSuitcase.
      rewrite (count_effect_log _ _ _ _ (showStep_log _ _ _ _)).
      unfold shown. repeat case_match; simpl; rewrite ?filter_cons; simpl;
        by repeat case_decide.
    - by rewrite initSuitcase_closures. }
  destruct (decide (name = "model")) as [->|Hm].
  { repeat split.
    change (activeScreens (App.showScreen "model" (load d)) = ["model"]).
    by rewrite activeScreens_showScreen. }
  rewrite (landing_other name He Hs Hm).
  unfold App.init. destruct (_ && _).
  - unfold App.jumpTo. rewrite !bool_decide_eq_false_2 by done.
    apply startFlow_lands_on_progress; [by rewrite keys_showScreen|done..].
  - by apply startFlow_lands_on_progress.
Qed.

(** X9. The default flow, to its end: once the progress sequence is over
    the error screen is the active one and flashes; the first timer
    replaces the flash by the shake; the second removes the shake.  Then
    nothing is pending: no timer and no resolved promise moves the page
    any further. *)
Theorem default_flow_ends_on_error_screen (d : DOM) (i : nat) :
  let p1 := handle (App.init None None (load d)) ProgressDone in
  let p2 := handle p1 (TimerFires 0) in
  let p3 := handle p2 (TimerFires 0) in
  (activeScreens p1 = ["error"] ∧ timers p1 = [FlashEnd] ∧
   JS.contains "flash" (screenClasses "error" p1) = true) ∧
  (activeScreens p2 = ["error"] ∧ timers p2 = [ShakeEnd] ∧
   JS.contains "flash" (screenClasses "error" p2) = false ∧
   JS.contains "shake" (screenClasses "error" p2) = true) ∧
  (activeScreens p3 = ["error"] ∧ timers p3 = [] ∧
   JS.contains "flash" (screenClasses "error" p3) = false ∧
   JS.contains "shake" (screenClasses "error" p3) = false ∧
   awaitingProgress p3 = false) ∧
  handle p3 (TimerFires i) = p3 ∧
  handle p3 ProgressDone = p3.
Proof.
  intros p1 p2 p3.
  assert (activeScreens p1 = ["error"]) as H1.
  { unfold p1. simpl. unfold App.startFlowResumed.
    change (activeScreens
              (App.onErrorScreen (JS.add "flash")
                 (App.showScreen "error" (App.showScreen "progress" (load d))))
            = ["error"]).
    rewrite activeScreens_onErrorScreen by (intros; by rewrite contains_add).
    by rewrite activeScreens_showScreen. }
  assert (activeScreens p2 = ["error"]) as H2.
  { rewrite <- H1. unfold p2.
    change (activeScreens
              (App.onErrorScreen (λ el, JS.add "shake" (JS.remove "flash" el)) p1)
            = activeScreens p1).
    apply activeScreens_onErrorScreen.
    intros. by rewrite contains_add, contains_remove. }
  assert (activeScreens p3 = ["error"]) as H3.
  { rewrite <- H2. unfold p3.
    change (activeScreens (App.onErrorScreen (JS.remove "shake") p2)
            = activeScreens p2).
    apply activeScreens_onErrorScreen.
    intros. by rewrite contains_remove. }
  repeat split; try done;
    unfold p3, p2, p1; cbv -[JS.contains JS.add JS.remove];
    rewrite ?contains_remove, ?contains_add, ?contains_remove, ?contains_add;
    try done; by destruct i.
Qed.

(** ** The progress sequencer *)

Module ProgressMore.

Import Progress ProgressFacts ProgressDOM.
Local Open Scope Q_scope.

Section Curve.

Lemma square_half (x : Q) : 1 - x ^ 2 / 2 == 1 - (1 # 2) * (x * x).
Proof. simpl. field. Qed.

Lemma eased_range t : 0 <= t → t <= 1 → 0 <= eased t ∧ eased t <= 1.
Proof.
  intros H0 H1. unfold eased. destruct (Qlt_le_dec t (1 # 2)).
  - split; nra.
  - rewrite square_half. split; nra.
Qed.

Lemma eased_mono a b : 0 <= a → a <= b → b <= 1 → eased a <= eased b.
Proof.
  intros H0 Hab H1. unfold eased.
  destruct (Qlt_le_dec a (1 # 2)), (Qlt_le_dec b (1 # 2));
    rewrite ?square_half; nra.
Qed.

Lemma eased_0 : eased 0 == 0.
Proof. reflexivity. Qed.

Lemma normalised_nonneg duration start now :
  0 < duration → start <= now → 0 <= normalised duration start now.
Proof.
  intros Hd Hn. unfold normalised. apply Qle_shift_div_l; [done|]. nra.
Qed.

Lemma normalised_mono duration start a b :
  0 < duration → a <= b →
  normalised duration start a <= normalised duration start b.
Proof.
  intros Hd Hab. unfold normalised, Qdiv. apply Qmult_le_compat_r; [nra|].
  apply Qlt_le_weak, Qinv_lt_0_compat, Hd.
Qed.

Lemma progress_range t : 0 <= t → 0 <= Qmin t 1 ∧ Qmin t 1 <= 1.
Proof.
  intros Ht. split; [|apply Q.le_min_r].
  apply Q.min_glb; [done|discriminate].
Qed.

End Curve.

Section Bars.

Lemma performAll_app steps l a b :
  performAll steps l (a ++ b) = performAll steps l a ≫= λ l', performAll steps l' b.
Proof.
  revert l. induction a as [|o a IH]; intros l; [done|].
  simpl. destruct (perform1 steps l o) as [l'|]; [|done]. simpl. apply IH.
Qed.

Lemma alter_last {A} (f : A → A) (l : list A) (x : A) :
  alter f (length l) (l ++ [x]) = l ++ [f x].
Proof. induction l as [|y l IH]; simpl; [done|]. by f_equal. Qed.

Lemma runStep_script i step :
  (runStep i step).2 =
    [AppendItem i; Sleep 300; ItemClass i "visible"; Sleep 200] ++
    match failPoint step with
    | Some p => drop 4 (failureScript i (duration step) p)
    | None =>
        [AnimateFill i 100 (duration step); StatusText i Blank;
         StatusClass i "done"; StatusTick i; Sleep 400]
    end.
Proof. unfold runStep. by destruct (failPoint step). Qed.

Lemma isPercentage_whole (q : Q) (n : Z) :
  q == inject_Z n → (0 ≤ n ≤ 101)%Z → isPercentage q = true.
Proof.
  intros Hq Hn. unfold isPercentage.
  assert (Qfloor q = n) as -> by (rewrite Hq; apply Qfloor_Z).
  rewrite (proj2 (Qeq_bool_iff _ _) Hq). simpl.
  by rewrite (proj2 (Z.leb_le _ _) (proj1 Hn)), (proj2 (Z.leb_le _ _) (proj2 Hn)).
Qed.

Lemma settles_whole (w : option Q) (q d : Q) (m n : Z) :
  default 0 w == inject_Z m → (0 ≤ m ≤ 101)%Z →
  q == inject_Z n → (0 ≤ n ≤ 101)%Z → 0 < d → settles w q d = true.
Proof.
  intros Hw Hm Hq Hn Hd. unfold settles.
  rewrite (isPercentage_whole _ m Hw Hm), (isPercentage_whole _ n Hq Hn). simpl.
  apply negb_true_iff. apply not_true_iff_false. intros H%Qle_bool_iff.
  by apply (Qlt_not_le _ _ Hd).
Qed.

Lemma performAll_cons steps l o rest :
  performAll steps l (o :: rest)
  = perform1 steps l o ≫= λ l', performAll steps l' rest.
Proof. reflexivity. Qed.

Lemma performAll_fill steps l item target d rest :
  settles (fillWidth item) target d = true →
  performAll steps (l ++ [item]) (AnimateFill (length l) target d :: rest)
  = performAll steps (l ++ [set_fillWidth target item]) rest.
Proof.
  intros Hs. rewrite performAll_cons. cbn [perform1].
  rewrite list_lookup_middle by done. cbn [mbind option_bind].
  rewrite Hs. cbn [mbind option_bind]. by rewrite alter_last.
Qed.

Ltac perform_op :=
  rewrite performAll_cons; cbn [perform1 mbind option_bind];
  rewrite ?alter_last.

Lemma runStep_finishes steps l i step :
  i = length l → steps !! i = Some step → settling step →
  performAll steps l (runStep i step).2 = Some (l ++ [finished step]).
Proof.
  intros -> Hi (Hd & Hp). rewrite runStep_script. unfold finished, failureScript.
  cbn [app]. perform_op. rewrite Hi. cbn [mbind option_bind].
  do 3 perform_op.
  destruct (failPoint step) as [p|]; cbn [drop].
  - destruct (Hp p eq_refl) as (n & Hn & Hr).
    assert (0 < p) as Hpos.
    { rewrite Hn. change 0 with (inject_Z 0). rewrite <- Zlt_Qlt. lia. }
    assert (0 < duration step * (p / 100)) as Hfrac.
    { apply Qmult_lt_0_compat; [done|]. apply Qlt_shift_div_l; [done|].
      by rewrite Qmult_0_l. }
    assert (p + 1 == inject_Z (n + 1)) as Hn1
      by (rewrite Hn, inject_Z_plus; reflexivity).
    assert (p - 2 == inject_Z (n - 2)) as Hn2
      by (rewrite Hn; unfold Z.sub; rewrite inject_Z_plus; reflexivity).
    rewrite performAll_fill
      by (apply (settles_whole _ _ _ 0 n); [reflexivity|lia|done|lia|done]).
    do 2 perform_op.
    rewrite performAll_fill
      by (apply (settles_whole _ _ _ n (n + 1)); [done|lia|done|lia|done]).
    do 2 perform_op.
    rewrite performAll_fill
      by (apply (settles_whole _ _ _ (n + 1) (n - 2)); [done|lia|done|lia|done]).
    do 4 perform_op. reflexivity.
  - rewrite performAll_fill
      by (apply (settles_whole _ _ _ 0 100); [reflexivity|lia|reflexivity|lia|done]).
    do 4 perform_op. reflexivity.
Qed.

Lemma blocks_finish steps done rest :
  steps = done ++ rest → Forall settling rest →
  performAll steps (finished <$> done)
    (concat (imap (λ j step, (runStep (length done + j) step).2) rest))
  = Some (finished <$> steps).
Proof.
  revert done. induction rest as [|step rest IH]; intros done -> Hwf.
  - simpl. by rewrite app_nil_r.
  - apply Forall_cons in Hwf as [Hstep Hrest].
    simpl imap. simpl concat. rewrite performAll_app, Nat.add_0_r.
    rewrite (runStep_finishes _ _ _ step); first last.
    + done.
    + by rewrite list_lookup_middle.
    + by rewrite length_fmap.
    + specialize (IH (done ++ [step])).
      rewrite fmap_app in IH. simpl in IH.
      rewrite <- app_assoc in IH. simpl in IH.
      simpl. rewrite <- IH by done. f_equal. f_equal.
      apply imap_ext. intros j x _. simpl. f_equal.
      rewrite length_app. simpl. f_equal. lia.
Qed.

Lemma totalAwaited_app a b : totalAwaited (a ++ b) == totalAwaited a + totalAwaited b.
Proof.
  induction a as [|o a IH]; simpl; [ring|]. rewrite IH. ring.
Qed.

Lemma runStep_time i step : totalAwaited (runStep i step).2 == stepTime step.
Proof.
  unfold runStep, stepTime. destruct (failPoint step) as [p|];
    cbv [mbind Async_bind perform sleep fst snd app totalAwaited foldr awaited];
    ring.
Qed.

Lemma forSteps_time i steps :
  totalAwaited (forSteps i steps).2 == foldr (λ step acc, stepTime step + acc) 0 steps.
Proof.
  revert i. induction steps as [|step steps IH]; intros i; [reflexivity|].
  simpl forSteps. rewrite bind_script, totalAwaited_app, runStep_time, IH.
  reflexivity.
Qed.

End Bars.

End ProgressMore.

Import Progress ProgressFacts ProgressDOM ProgressMore.

(** X10. What the list of bars looks like when [runProgress] is through,
    whatever it held before, for steps of positive duration whose failure
    points are whole numbers from 2 to 100: one bar per step, in order,
    each visible; the bar of a step without failure point is full (100%)
    and carries the tick and the class [done]; the bar of a failing step
    stands at [p - 2] percent, reads FAILED, and carries the class [fail]
    and the error gradient. *)
Theorem runProgress_leaves_finished_bars (steps : list Step) (before : list Item) :
  Forall settling steps →
  performAll steps before (runProgressOf steps).2 = Some (finished <$> steps).
Proof.
  intros Hwf.
  assert (performAll steps [] (forSteps 0 steps).2 = Some (finished <$> steps)) as H.
  { rewrite forSteps_script. exact (blocks_finish steps [] steps eq_refl Hwf). }
  unfold runProgressOf. rewrite !bind_script, performAll_app.
  change (performAll steps before (perform ClearList).2) with (Some (@nil Item)).
  cbn [mbind option_bind]. by rewrite performAll_app, H.
Qed.

Lemma runProgress_leaves_finished_bars_witness :
  performAll STEPS [] (runProgressOf STEPS).2 = Some (finished <$> STEPS).
Proof.
  apply (runProgress_leaves_finished_bars STEPS []).
  unfold STEPS.
  repeat apply Forall_cons_2; try apply Forall_nil_2;
    (split; [reflexivity|]); intros p Hp; try discriminate Hp.
  injection Hp as <-. exists 87%Z. split; [reflexivity|lia].
Defined.

(** X11. The delays [runProgress] waits for add up to 600 ms plus, for
    every step, 500 ms, then its duration and 400 ms when it completes, or
    the fraction [p / 100] of its duration and 3200 ms when it fails at
    [p]; for [STEPS] that is 19310 ms. *)
Theorem runProgress_total_delay (steps : list Step) :
  (totalAwaited (runProgressOf steps).2
     == foldr (λ step acc, stepTime step + acc) 0 steps + 600)%Q ∧
  (totalAwaited runProgress.2 == 19310)%Q.
Proof.
  split; [|reflexivity].
  unfold runProgressOf. rewrite !bind_script, !totalAwaited_app, forSteps_time.
  simpl. ring.
Qed.

(** X13. The bar moves towards its target and never back: of two frames
    after the call, the later one writes a width at least as close to the
    target (larger when the bar grows, smaller when it shrinks). *)
Theorem animateFill_moves_towards_target
    (width : option Q) (target duration start now1 now2 : Q) :
  (0 < duration)%Q → (start <= now1)%Q → (now1 <= now2)%Q →
  let startWidth := default 0%Q width in
  let delta := (target - startWidth)%Q in
  ((startWidth <= target)%Q →
     ((frame start startWidth delta duration now1).1
        <= (frame start startWidth delta duration now2).1)%Q) ∧
  ((target <= startWidth)%Q →
     ((frame start startWidth delta duration now2).1
        <= (frame start startWidth delta duration now1).1)%Q).
Proof.
  intros Hd H1 H2 startWidth delta. unfold frame. simpl.
  fold (normalised duration start now1). fold (normalised duration start now2).
  pose proof (normalised_nonneg duration start now1 Hd H1) as Hn1.
  pose proof (normalised_mono duration start now1 now2 Hd H2) as Hm.
  assert (eased (Qmin (normalised duration start now1) 1)
          <= eased (Qmin (normalised duration start now2) 1))%Q as He.
  { apply eased_mono.
    - by apply progress_range.
    - by apply Q.min_le_compat_r.
    - apply Q.le_min_r. }
  set (e1 := eased _) in *. set (e2 := eased _) in *. unfold delta.
  split; intros Hdir; nra.
Qed.

Lemma animateFill_moves_towards_target_witness :
  ((frame 0 0 (100 - 0) 2000 500).1 <= (frame 0 0 (100 - 0) 2000 1500).1)%Q.
Proof.
  assert (0 < 2000)%Q as Hd by reflexivity.
  assert (0 <= 500)%Q as H1 by discriminate.
  assert (500 <= 1500)%Q as H2 by discriminate.
  apply (animateFill_moves_towards_target None 100 2000 0 500 1500 Hd H1 H2).
  discriminate.
Defined.

(** ** The video player *)

Section VideoMore.

Import Video.

Lemma iter_preserves {A} (P : A → Prop) (f : A → A) (n : nat) (x : A) :
  P x → (∀ y, P y → P (f y)) → P (Nat.iter n f x).
Proof. intros Hx Hf. induction n as [|n IH]; simpl; auto. Qed.

Lemma add_show_again (l : JS.classList) :
  JS.contains "show" l = true → JS.add "show" l = l.
Proof. intros H. unfold JS.add. by rewrite H. Qed.

Lemma handle_keeps_show st e :
  JS.contains "show" (continueBtn st) = true →
  JS.contains "show" (continueBtn (Video.handle st e)) = true.
Proof.
  intros H. destruct e as [m|env|doc|doc t]; simpl.
  - unfold initVideo. destruct (negb (hasSource m)); simpl; [|done].
    by rewrite contains_add.
  - apply (iter_preserves (λ s, JS.contains "show" (continueBtn s) = true)); [done|].
    by intros.
  - apply (iter_preserves (λ s, JS.contains "show" (continueBtn s) = true)); [done|].
    intros y _. simpl. by rewrite contains_add.
  - apply (iter_preserves (λ s, JS.contains "show" (continueBtn s) = true)); [done|].
    intros y Hy. unfold onFullscreenChange.
    repeat case_match; simpl; try done. by rewrite contains_add.
Qed.

Lemma handle_quiet st e :
  quiet e = true → continueBtn (Video.handle st e) = continueBtn st.
Proof.
  intros Hq. destruct e as [m|env|doc|doc t]; simpl in *; try done.
  - unfold initVideo. by rewrite Hq.
  - apply (iter_preserves (λ s, continueBtn s = continueBtn st)); [done|].
    by intros.
  - apply (iter_preserves (λ s, continueBtn s = continueBtn st)); [done|].
    intros y Hy. unfold onFullscreenChange.
    destruct (fullscreenElement doc), (webkitFullscreenElement doc); simpl in *;
      try done.
    by destruct (Qlt_le_dec 0 t).
Qed.

End VideoMore.

(** X14. Without a video source [initVideo] shows the placeholder, hides
    the play button and offers the continue button, and registers no
    listener: whatever is clicked or signalled afterwards, nothing more
    happens and the browser is never called. *)
Theorem initVideo_without_source_is_inert
    (m : Video.Media) (st : Video.State) (es : list Video.event) :
  Video.hasSource m = false →
  Video.listeners st = 0%nat →
  Forall (λ e, match e with
               | Video.InitVideo m' => Video.hasSource m' = false
               | _ => True
               end) es →
  Video.playBtnDisplay (Video.initVideo m st) = "none" ∧
  Video.placeholderDisplay (Video.initVideo m st) = "flex" ∧
  JS.contains "show" (Video.continueBtn (Video.initVideo m st)) = true ∧
  Video.run (Video.initVideo m st) es = Video.initVideo m st.
Proof.
  intros Hm Hl Hes. unfold Video.initVideo at 1 2 3. rewrite Hm. simpl.
  rewrite contains_add. repeat split; try done.
  set (st' := Video.initVideo m st).
  assert (Video.listeners st' = 0%nat ∧ st' = Video.initVideo m st) as Hst'.
  { unfold st', Video.initVideo. by rewrite Hm. }
  destruct Hst' as [Hl' Heq].
  induction Hes as [|e es He _ IH]; [done|].
  simpl. enough (Video.handle st' e = st') as -> by done.
  destruct e as [m'|env|doc|doc t]; simpl; rewrite ?Hl'; try done.
  rewrite Heq. unfold Video.initVideo. rewrite He, Hm. simpl.
  f_equal. apply add_show_again. by rewrite contains_add.
Qed.

Lemma initVideo_without_source_is_inert_witness :
  Video.run (Video.initVideo (Video.mkMedia false "" "https://example.org/")
                             (Video.mkState "" "" [] 0 []))
            [Video.ClickPlay (Video.mkFullscreen (Some false) None None None None)]
  = Video.initVideo (Video.mkMedia false "" "https://example.org/")
                    (Video.mkState "" "" [] 0 []).
Proof.
  refine (proj2 (proj2 (proj2
    (initVideo_without_source_is_inert
       (Video.mkMedia false "" "https://example.org/")
       (Video.mkState "" "" [] 0 [])
       [Video.ClickPlay (Video.mkFullscreen (Some false) None None None None)]
       _ _ _)))).
  - reflexivity.
  - reflexivity.
  - repeat constructor.
Defined.

(** Closes a goal from a membership in an explicit list that does not
    hold. *)
Ltac not_among H :=
  apply (bool_decide_pack _) in H; vm_compute in H; destruct H.

(** X15. A click on the play button always ends in [video.play()], called
    once and last, with the play button hidden, whichever fullscreen
    methods exist and whichever of them throw.  At most one method of the
    video and one of the container are called; the container is asked
    only after the video's call threw; the warning is logged only when
    both threw; and when the video has no fullscreen method at all no
    fullscreen is requested. *)
Theorem play_click_always_plays (env : Video.Fullscreen) (st : Video.State) :
  Video.calls (Video.enterFullscreenAndPlay env st)
    = Video.calls st ++ Video.fullscreenCalls env ++ [Video.Play] ∧
  Video.playBtnDisplay (Video.enterFullscreenAndPlay env st) = "none" ∧
  Video.continueBtn (Video.enterFullscreenAndPlay env st) = Video.continueBtn st ∧
  (Video.Play ∉ Video.fullscreenCalls env) ∧
  (length (Video.fullscreenCalls env) ≤ 3)%nat ∧
  ((Video.ContainerRequestFullscreen ∈ Video.fullscreenCalls env ∨
    Video.ContainerWebkitRequestFullscreen ∈ Video.fullscreenCalls env) →
   (Video.tryVideo env).2 = true) ∧
  (Video.Warn ∈ Video.fullscreenCalls env →
   (Video.tryVideo env).2 = true ∧ (Video.tryContainer env).2 = true) ∧
  ((Video.tryVideo env).1 = [] → Video.fullscreenCalls env = []).
Proof.
  split; [done|]. split; [done|]. split; [done|].
  destruct env as [[[]|] [[]|] [[]|] [[]|] [[]|]];
    cbv [Video.fullscreenCalls Video.tryVideo Video.tryContainer
         Video.videoRequestFullscreen Video.videoWebkitRequestFullscreen
         Video.videoWebkitEnterFullScreen Video.containerRequestFullscreen
         Video.containerWebkitRequestFullscreen app fst snd length];
    (split; [intros H; not_among H|]);
    (split; [lia|]);
    (split; [intros [H|H]; first [reflexivity | not_among H]|]);
    (split; [intros H; first [by split | not_among H]|]);
    first [done | intros H; discriminate H].
Qed.

Lemma play_click_always_plays_witness :
  Video.fullscreenCalls (Video.mkFullscreen (Some true) None None None (Some true))
  = [Video.VideoRequestFullscreen; Video.ContainerWebkitRequestFullscreen; Video.Warn]
  ∧ (Video.tryVideo (Video.mkFullscreen (Some true) None None None (Some true))).2 = true.
Proof.
  split; [reflexivity|].
  refine (proj1 (proj1 (proj2 (proj2 (proj2 (proj2 (proj2 (proj2
    (play_click_always_plays
       (Video.mkFullscreen (Some true) None None None (Some true))
       (Video.mkState "flex" "none" [] 1 [])))))))) _)).
  vm_compute. apply list_elem_of_further, list_elem_of_further, list_elem_of_here.
Defined.

(** X16. The continue button, once shown, is never hidden again; events
    that are quiet (a click on play, a call of [initVideo] with a source,
    a fullscreen change while fullscreen is on or before playback has
    started) leave it as it is; and the end of the video shows it as soon
    as one listener is registered. *)
Theorem continue_button_is_revealed_for_good
    (st : Video.State) (es : list Video.event) (doc : Video.Document) :
  (JS.contains "show" (Video.continueBtn st) = true →
   JS.contains "show" (Video.continueBtn (Video.run st es)) = true) ∧
  (Forall (λ e, Video.quiet e = true) es →
   Video.continueBtn (Video.run st es) = Video.continueBtn st) ∧
  ((0 < Video.listeners st)%nat →
   JS.contains "show" (Video.continueBtn (Video.handle st (Video.Ended doc))) = true).
Proof.
  repeat split.
  - revert st. induction es as [|e es IH]; intros st H; [done|].
    simpl. by apply IH, handle_keeps_show.
  - intros H. revert st. induction H as [|e es He _ IH]; intros st; [done|].
    simpl. by rewrite IH, handle_quiet.
  - intros Hl. simpl. destruct (Video.listeners st) as [|n]; [lia|].
    simpl. by rewrite contains_add.
Qed.

Lemma continue_button_is_revealed_for_good_witness :
  Video.continueBtn
    (Video.run (Video.mkState "flex" "none" ["btn"] 1 [])
       [Video.ClickPlay (Video.mkFullscreen (Some false) None None None None);
        Video.FullscreenChange (Video.mkDocument true false true false) 3%Q])
  = ["btn"] ∧
  JS.contains "show"
    (Video.continueBtn
       (Video.handle (Video.mkState "flex" "none" ["btn"] 1 [])
          (Video.Ended (Video.mkDocument true false true false)))) = true.
Proof.
  destruct (continue_button_is_revealed_for_good
              (Video.mkState "flex" "none" ["btn"] 1 [])
              [Video.ClickPlay (Video.mkFullscreen (Some false) None None None None);
               Video.FullscreenChange (Video.mkDocument true false true false) 3%Q]
              (Video.mkDocument true false true false)) as (_ & Hq & He).
  split.
  - apply Hq. repeat constructor.
  - apply He. simpl. lia.
Defined.

(** ** The model viewer *)

Section ModelMore.

Import ModelViewer.

Lemma findAndLoad_found fetch pre path post :
  Forall (λ x, fetch x ≠ Ok) pre → fetch path = Ok →
  findAndLoad fetch (pre ++ path :: post)
  = (Fetch <$> pre) ++ [Fetch path; LoadModel path].
Proof.
  intros Hpre Hok. induction Hpre as [|x pre Hx _ IH]; simpl.
  - by rewrite Hok.
  - rewrite IH. by destruct (fetch x).
Qed.

Lemma findAndLoad_none fetch paths :
  Forall (λ x, fetch x ≠ Ok) paths →
  findAndLoad fetch paths = (Fetch <$> paths) ++ [ShowPlaceholderCube].
Proof.
  induction 1 as [|x paths Hx _ IH]; simpl; [done|].
  rewrite IH. by destruct (fetch x).
Qed.

Lemma findAndLoad_last fetch paths :
  last (findAndLoad fetch paths) = Some ShowPlaceholderCube ∨
  ∃ path, last (findAndLoad fetch paths) = Some (LoadModel path) ∧
          path ∈ paths ∧ fetch path = Ok.
Proof.
  induction paths as [|x paths IH]; simpl; [by left|].
  destruct (fetch x) eqn:Hx.
  - right. exists x. split; [done|]. split; [left|done].
  - destruct (findAndLoad fetch paths) as [|a l] eqn:Hf.
    { destruct paths; simpl in Hf; discriminate Hf. }
    rewrite last_cons_cons.
    destruct IH as [IH|(path & IH & Hin & Hok)]; [by left|].
    right. exists path. split; [done|]. split; [by right|done].
  - destruct (findAndLoad fetch paths) as [|a l] eqn:Hf.
    { destruct paths; simpl in Hf; discriminate Hf. }
    rewrite last_cons_cons.
    destruct IH as [IH|(path & IH & Hin & Hok)]; [by left|].
    right. exists path. split; [done|]. split; [by right|done].
Qed.

End ModelMore.

(** X17. [tryLoadModel] asks for the candidate paths in order and stops at
    the first one whose HEAD request is ok, which it loads; requests that
    fail or are not ok are passed over; when no candidate is ok it shows
    the placeholder cube.  Together with the loader's error callback the
    scene always ends up with something: a model that was found and
    loaded, or the placeholder. *)
Theorem tryLoadModel_loads_first_found_or_placeholder
    (fetch : string → ModelViewer.response) (loads : string → bool) :
  (∀ pre path post,
     ModelViewer.possiblePaths = pre ++ path :: post →
     Forall (λ x, fetch x ≠ ModelViewer.Ok) pre →
     fetch path = ModelViewer.Ok →
     ModelViewer.tryLoadModel fetch
     = (ModelViewer.Fetch <$> pre)
       ++ [ModelViewer.Fetch path; ModelViewer.LoadModel path]) ∧
  (Forall (λ x, fetch x ≠ ModelViewer.Ok) ModelViewer.possiblePaths →
   ModelViewer.tryLoadModel fetch
   = (ModelViewer.Fetch <$> ModelViewer.possiblePaths)
     ++ [ModelViewer.ShowPlaceholderCube]) ∧
  (∃ sc, ModelViewer.shown fetch loads = Some sc ∧
         ∀ path, sc = ModelViewer.Model path →
                 path ∈ ModelViewer.possiblePaths ∧
                 fetch path = ModelViewer.Ok ∧ loads path = true).
Proof.
  split; [|split].
  - intros pre path post Hp Hpre Hok. unfold ModelViewer.tryLoadModel.
    rewrite Hp. by apply findAndLoad_found.
  - apply findAndLoad_none.
  - unfold ModelViewer.shown, ModelViewer.tryLoadModel.
    destruct (findAndLoad_last fetch ModelViewer.possiblePaths)
      as [->|(path & -> & Hin & Hok)].
    + exists ModelViewer.PlaceholderCube. split; [done|]. by intros.
    + unfold ModelViewer.loadModel. destruct (loads path) eqn:Hl.
      * exists (ModelViewer.Model path). split; [done|].
        intros path' [= <-]. done.
      * exists ModelViewer.PlaceholderCube. split; [done|]. by intros.
Qed.

Lemma tryLoadModel_loads_first_found_or_placeholder_witness :
  ModelViewer.tryLoadModel
    (λ path, if bool_decide (path = "assets/model/model.glb")
             then ModelViewer.Ok else ModelViewer.Rejected)
  = [ModelViewer.Fetch "assets/model/gift.glb";
     ModelViewer.Fetch "assets/model/model.glb";
     ModelViewer.LoadModel "assets/model/model.glb"].
Proof.
  refine (proj1 (tryLoadModel_loads_first_found_or_placeholder
    (λ path, if bool_decide (path = "assets/model/model.glb")
             then ModelViewer.Ok else ModelViewer.Rejected)
    (λ _, true))
    ["assets/model/gift.glb"] "assets/model/model.glb"
    ["assets/model/gift.gltf"; "assets/model/model.gltf"] _ _ _).
  - reflexivity.
  - repeat constructor. discriminate.
  - reflexivity.
Defined.
